(** * GhostStake: a confidential Gold ledger (contracts/GhostStake.sol)

    The contract keeps, per player, an encrypted wallet balance, an encrypted
    staked balance, an encrypted status code of the last action, a public
    one-time-claim flag and three existence flags.  All arithmetic goes
    through the FHE library of the fhEVM; handles are [bytes32] values that
    name a ciphertext held by the coprocessor.

    The development embeds the contract as functions in a state-and-revert
    monad over the world state (contract storage, the ACL of the FHE
    library, the event log) and proves the properties of the ledger.  It
    also embeds the parts of the two clients that read the contract, the web
    component StakeApp.tsx and the command line task task:decrypt-balances,
    and proves that what they show agrees with the contract. *)

From Stdlib Require Import ZArith Lia String List.
From Stdlib.Strings Require Import Byte.
From stdpp Require Import gmap.
Import ListNotations.

Local Open Scope Z_scope.

(** ** Solidity value types *)

Definition address := Z.
Definition bytes := list Byte.byte.

(** uint32 arithmetic wraps modulo 2^32. *)
Definition uint32_modulus : Z := 2 ^ 32.
Definition wrap32 (v : Z) : Z := v mod uint32_modulus.

(** ** Encrypted values *)

(** An input handle supplied by a player, with the cleartext its ciphertext
    encrypts. *)
Record externalEuint32 := mkExternal { ext_handle : Z; ext_value : Z }.

(** Modelled from the spec: the confidential integer type of the FHE library
    (imported from @fhevm/solidity, not part of the repository).  An
    [euint32] is a [bytes32] handle.  The fhEVM computes the handle of the
    result of an operation from the operation and the handles of its
    operands, and the coprocessor later evaluates the same operation on the
    ciphertexts.  A handle is therefore modelled by the expression that
    produced it; [Uninitialized] is [bytes32(0)], the value every storage
    slot of type [euint32] holds before it is written. *)
Inductive euint32 :=
| Uninitialized
| TrivialEncrypt (v : Z)
| VerifiedInput (input : externalEuint32)
| FheAdd (lhs rhs : euint32)
| FheSub (lhs rhs : euint32)
| FheIfThenElse (control : ebool) (ifTrue ifFalse : euint32)
with ebool :=
| FheGe (lhs rhs : euint32).

(** Modelled from the spec: what the key holder reads when decrypting a
    handle, with [add], [sub], [ge] and [select] as the confidential
    arithmetic on 32-bit unsigned integers.  The zero handle is shown as 0 by
    the clients of the contract (tasks/GhostStake.ts compares with
    [ethers.ZeroHash] before decrypting). *)
Fixpoint decrypt (e : euint32) : Z :=
  match e with
  | Uninitialized => 0
  | TrivialEncrypt v => wrap32 v
  | VerifiedInput input => wrap32 (ext_value input)
  | FheAdd a b => wrap32 (decrypt a + decrypt b)
  | FheSub a b => wrap32 (decrypt a - decrypt b)
  | FheIfThenElse c a b => if decrypt_bool c then decrypt a else decrypt b
  end
with decrypt_bool (c : ebool) : bool :=
  match c with
  | FheGe a b => decrypt b <=? decrypt a
  end.

(** ** World state *)

Inductive Event :=
| GoldClaimed (player : address)
| GoldStaked (player : address)
| GoldWithdrawn (player : address).

Record State := mkState {
  goldBalances : gmap address euint32;
  stakedBalances : gmap address euint32;
  hasClaimed : gmap address bool;
  lastActionStatus : gmap address euint32;
  hasGoldBalance : gmap address bool;
  hasStakedBalance : gmap address bool;
  hasStatusRecord : gmap address bool;
  (** persistent permissions recorded by the ACL contract *)
  acl : list (euint32 * address);
  (** events emitted so far, oldest first *)
  events : list Event
}.

(** Storage right after deployment: every mapping is empty. *)
Definition initial_state : State :=
  mkState ∅ ∅ ∅ ∅ ∅ ∅ ∅ [] [].

(** Storage references, as passed to [_storeEncryptedValue]. *)
Inductive euintMapping := ref_goldBalances | ref_stakedBalances | ref_lastActionStatus.
Inductive boolMapping :=
  ref_hasClaimed | ref_hasGoldBalance | ref_hasStakedBalance | ref_hasStatusRecord.

Definition euint_slot (r : euintMapping) (s : State) : gmap address euint32 :=
  match r with
  | ref_goldBalances => goldBalances s
  | ref_stakedBalances => stakedBalances s
  | ref_lastActionStatus => lastActionStatus s
  end.

Definition bool_slot (r : boolMapping) (s : State) : gmap address bool :=
  match r with
  | ref_hasClaimed => hasClaimed s
  | ref_hasGoldBalance => hasGoldBalance s
  | ref_hasStakedBalance => hasStakedBalance s
  | ref_hasStatusRecord => hasStatusRecord s
  end.

(** Reading a mapping entry that was never written gives the zero value. *)
Definition read_euint (r : euintMapping) (s : State) (a : address) : euint32 :=
  default Uninitialized (euint_slot r s !! a).

Definition read_bool (r : boolMapping) (s : State) (a : address) : bool :=
  default false (bool_slot r s !! a).

Definition write_euint (r : euintMapping) (a : address) (v : euint32) (s : State) : State :=
  match r with
  | ref_goldBalances =>
      mkState (<[a:=v]> (goldBalances s)) (stakedBalances s) (hasClaimed s)
        (lastActionStatus s) (hasGoldBalance s) (hasStakedBalance s)
        (hasStatusRecord s) (acl s) (events s)
  | ref_stakedBalances =>
      mkState (goldBalances s) (<[a:=v]> (stakedBalances s)) (hasClaimed s)
        (lastActionStatus s) (hasGoldBalance s) (hasStakedBalance s)
        (hasStatusRecord s) (acl s) (events s)
  | ref_lastActionStatus =>
      mkState (goldBalances s) (stakedBalances s) (hasClaimed s)
        (<[a:=v]> (lastActionStatus s)) (hasGoldBalance s) (hasStakedBalance s)
        (hasStatusRecord s) (acl s) (events s)
  end.

Definition write_bool (r : boolMapping) (a : address) (v : bool) (s : State) : State :=
  match r with
  | ref_hasClaimed =>
      mkState (goldBalances s) (stakedBalances s) (<[a:=v]> (hasClaimed s))
        (lastActionStatus s) (hasGoldBalance s) (hasStakedBalance s)
        (hasStatusRecord s) (acl s) (events s)
  | ref_hasGoldBalance =>
      mkState (goldBalances s) (stakedBalances s) (hasClaimed s)
        (lastActionStatus s) (<[a:=v]> (hasGoldBalance s)) (hasStakedBalance s)
        (hasStatusRecord s) (acl s) (events s)
  | ref_hasStakedBalance =>
      mkState (goldBalances s) (stakedBalances s) (hasClaimed s)
        (lastActionStatus s) (hasGoldBalance s) (<[a:=v]> (hasStakedBalance s))
        (hasStatusRecord s) (acl s) (events s)
  | ref_hasStatusRecord =>
      mkState (goldBalances s) (stakedBalances s) (hasClaimed s)
        (lastActionStatus s) (hasGoldBalance s) (hasStakedBalance s)
        (<[a:=v]> (hasStatusRecord s)) (acl s) (events s)
  end.

Definition add_permission (v : euint32) (who : address) (s : State) : State :=
  mkState (goldBalances s) (stakedBalances s) (hasClaimed s)
    (lastActionStatus s) (hasGoldBalance s) (hasStakedBalance s)
    (hasStatusRecord s) ((v, who) :: acl s) (events s).

Definition log_event (e : Event) (s : State) : State :=
  mkState (goldBalances s) (stakedBalances s) (hasClaimed s)
    (lastActionStatus s) (hasGoldBalance s) (hasStakedBalance s)
    (hasStatusRecord s) (acl s) (events s ++ [e]).

(** ** The execution monad: state passing with revert *)

Inductive RevertData :=
| ErrorString (reason : string)
| InvalidProof.

Inductive Result (A : Type) :=
| Ok (a : A) (s : State)
| Revert (why : RevertData).
Arguments Ok {A} a s.
Arguments Revert {A} why.

Definition M (A : Type) : Type := State -> Result A.

Definition ret {A} (a : A) : M A := fun s => Ok a s.

Definition bind {A B} (m : M A) (k : A -> M B) : M B :=
  fun s => match m s with
           | Ok a s' => k a s'
           | Revert why => Revert why
           end.

Declare Scope evm_scope.
Delimit Scope evm_scope with evm.
Notation "'do' x <- c ; k" := (bind c (fun x => k))
  (at level 10, x name, c at level 100, k at level 200) : evm_scope.
Notation "c ;; k" := (bind c (fun _ => k))
  (at level 100, k at level 200, right associativity) : evm_scope.

Definition require (cond : bool) (reason : string) : M unit :=
  fun s => if cond then Ok tt s else Revert (ErrorString reason).

Definition sload_euint (r : euintMapping) (a : address) : M euint32 :=
  fun s => Ok (read_euint r s a) s.

Definition sload_bool (r : boolMapping) (a : address) : M bool :=
  fun s => Ok (read_bool r s a) s.

Definition sstore_euint (r : euintMapping) (a : address) (v : euint32) : M unit :=
  fun s => Ok tt (write_euint r a v s).

Definition sstore_bool (r : boolMapping) (a : address) (v : bool) : M unit :=
  fun s => Ok tt (write_bool r a v s).

Definition emit (e : Event) : M unit :=
  fun s => Ok tt (log_event e s).

(** ** The FHE library, as far as the contract uses it *)

(** Modelled from the spec: the operations [fromPlain], [add], [sub], [ge],
    [select], [importExternal], [grantAccess] and [grantAccessToSelf] of the
    confidential-arithmetic capability, under the names the contract calls
    them by. *)
Module FHE.

Definition isInitialized (e : euint32) : bool :=
  match e with Uninitialized => false | _ => true end.

Definition asEuint32 (value : Z) : euint32 := TrivialEncrypt value.

(** The arithmetic and comparison operations replace an uninitialized
    operand by a trivial encryption of 0; [select] passes its operands on as
    they are. *)
Definition operand (e : euint32) : euint32 :=
  if isInitialized e then e else asEuint32 0.

Definition add (a b : euint32) : euint32 := FheAdd (operand a) (operand b).
Definition sub (a b : euint32) : euint32 := FheSub (operand a) (operand b).
Definition ge (a b : euint32) : ebool := FheGe (operand a) (operand b).
Definition select (control : ebool) (a b : euint32) : euint32 :=
  FheIfThenElse control a b.

Section Effects.
(** The input verifier of the fhEVM: whether [inputProof] attests the
    input handle for this sender and this contract. *)
Variable verifyCiphertext : address -> address -> externalEuint32 -> bytes -> bool.
Variable this : address.

Definition fromExternal (msg_sender : address)
    (inputHandle : externalEuint32) (inputProof : bytes) : M euint32 :=
  fun s =>
    if verifyCiphertext msg_sender this inputHandle inputProof
    then Ok (VerifiedInput inputHandle) s
    else Revert InvalidProof.

Definition allow (value : euint32) (account : address) : M unit :=
  fun s => Ok tt (add_permission value account s).

Definition allowThis (value : euint32) : M unit := allow value this.
End Effects.

End FHE.

(** ** Calls

    The three external entry points that change the state, with their
    arguments. *)

Inductive Call :=
| call_claimInitialGold
| call_stakeGold (encryptedAmountHandle : externalEuint32) (inputProof : bytes)
| call_withdrawStakedGold (encryptedAmountHandle : externalEuint32) (inputProof : bytes).

(** ** A sample environment, for the examples

    An input verifier that accepts every non-empty proof, an address for the
    deployed contract, two players and a few inputs. *)

Definition sample_verifier (sender contract : address)
    (input : externalEuint32) (proof : bytes) : bool :=
  match proof with
  | [] => false
  | _ :: _ => true
  end.

Definition sample_contract : address := 4096.
Definition alice : address := 7.
Definition bob : address := 8.
Definition sample_proof : bytes := [x2a].
Definition input_40 : externalEuint32 := mkExternal 1001 40.
Definition input_20 : externalEuint32 := mkExternal 1002 20.
Definition input_150 : externalEuint32 := mkExternal 1003 150.

(** Alice claims; Alice claims and stakes 40. *)
Definition history_claim : list (address * Call) :=
  [(alice, call_claimInitialGold)].

Definition history_stake : list (address * Call) :=
  [(alice, call_claimInitialGold); (alice, call_stakeGold input_40 sample_proof)].

(** A run of stake and withdraw calls by Alice: one too large, one with an
    empty proof, two that go through. *)
Definition sample_moves : list (address * Call) :=
  [(alice, call_stakeGold input_150 sample_proof);
   (alice, call_stakeGold input_40 sample_proof);
   (alice, call_withdrawStakedGold input_40 []);
   (alice, call_withdrawStakedGold input_20 sample_proof)].

(** Calls by both players after Alice's claim. *)
Definition sample_interleaving : list (address * Call) :=
  [(bob, call_claimInitialGold);
   (alice, call_stakeGold input_20 sample_proof);
   (bob, call_withdrawStakedGold input_20 sample_proof)].

(** ** The web client (StakeApp.tsx)

    The parts of the React component that decide what the player sees: the
    description of the status code, the decryption of the three handles read
    from the contract, and the claim button.  A value fetched with
    [useReadContract] is [None] until it is loaded. *)

Module StakeApp.

Definition ZERO_HASH : euint32 := Uninitialized.

Definition is_ZERO_HASH (cipher : euint32) : bool :=
  match cipher with
  | Uninitialized => true
  | _ => false
  end.

Definition STATUS_MESSAGES : gmap Z string :=
  <[0 := "Ready for the next move"%string]>
    (<[1 := "Insufficient Gold balance"%string]>
      (<[2 := "Insufficient staked balance"%string]> ∅)).

Inductive FeedbackType := success | error | info.

Record Feedback := mkFeedback { type : FeedbackType; text : string }.

Record DecryptedBalances := mkDecryptedBalances { gold : Z; staked : Z; status : Z }.

(** The pieces of component state that [decryptBalances] reads and sets. *)
Record DecryptState := mkDecryptState {
  feedback : option Feedback;
  isDecrypting : bool;
  decrypted : option DecryptedBalances
}.

(** What a rejected promise carries: an [Error] with its message, or some
    other value. *)
Inductive Thrown :=
| ErrorObject (message : string)
| OtherValue.

(** The relayer instance, as far as [decryptBalances] depends on it: the
    cleartexts it returns for the handles it is asked about, keyed by
    handle, unless the request fails. *)
Record Instance := mkInstance {
  userDecrypt : list euint32 -> address -> Thrown + (euint32 -> option Z)
}.

(** The wallet signer: the signature of the typed decryption request, unless
    signing fails. *)
Record Signer := mkSigner { signTypedData : Thrown + string }.

Definition statusDescription (decrypted : option DecryptedBalances) : string :=
  match decrypted with
  | None => "Decrypt to view the latest status"
  | Some d => default "Unknown status"%string (STATUS_MESSAGES !! status d)
  end.

Definition ensureSigner (signer : option Signer) : Thrown + Signer :=
  match signer with
  | None => inl (ErrorObject "Wallet signer unavailable")
  | Some sg => inr sg
  end.

(** [cipher && cipher !== ZERO_HASH] *)
Definition to_decrypt (cipher : option euint32) : bool :=
  match cipher with
  | Some handle => negb (is_ZERO_HASH handle)
  | None => false
  end.

(** The handles pushed on the request, in the order of the source. *)
Definition handles_of (goldCipher stakedCipher statusCipher : option euint32) : list euint32 :=
  (if to_decrypt goldCipher then option_list goldCipher else []) ++
  (if to_decrypt stakedCipher then option_list stakedCipher else []) ++
  (if to_decrypt statusCipher then option_list statusCipher else []).

(** [cipher && cipher !== ZERO_HASH ? Number(result[cipher] || 0) : 0] *)
Definition parsed_value (result : euint32 -> option Z) (cipher : option euint32) : Z :=
  match cipher with
  | Some handle => if is_ZERO_HASH handle then 0 else default 0 (result handle)
  | None => 0
  end.

Definition error_message (thrown : Thrown) (fallback : string) : string :=
  match thrown with
  | ErrorObject message => message
  | OtherValue => fallback
  end.

(** The body of the [try] block: the new decrypted values and feedback, or
    what was thrown. *)
Definition decrypt_request (inst : Instance) (account : address)
    (goldCipher stakedCipher statusCipher : option euint32) (signer : option Signer)
    : Thrown + (DecryptedBalances * Feedback) :=
  let handles := handles_of goldCipher stakedCipher statusCipher in
  match handles with
  | [] => inr (mkDecryptedBalances 0 0 0, mkFeedback info "Balances are zero")
  | _ :: _ =>
      match ensureSigner signer with
      | inl thrown => inl thrown
      | inr sg =>
          match signTypedData sg with
          | inl thrown => inl thrown
          | inr signature =>
              match userDecrypt inst handles account with
              | inl thrown => inl thrown
              | inr result =>
                  inr (mkDecryptedBalances
                         (parsed_value result goldCipher)
                         (parsed_value result stakedCipher)
                         (parsed_value result statusCipher),
                       mkFeedback success "Decrypted balances available below")
              end
          end
      end
  end.

Definition decryptBalances (instance : option Instance) (account : option address)
    (goldCipher stakedCipher statusCipher : option euint32) (signer : option Signer)
    (st : DecryptState) : DecryptState :=
  match instance with
  | None =>
      mkDecryptState (Some (mkFeedback error "Zama encryption service unavailable"))
        (isDecrypting st) (decrypted st)
  | Some inst =>
      match account with
      | None =>
          mkDecryptState (Some (mkFeedback error "Connect your wallet to decrypt"))
            (isDecrypting st) (decrypted st)
      | Some addr =>
          match goldCipher, stakedCipher, statusCipher with
          | None, None, None =>
              mkDecryptState (Some (mkFeedback error "No balances to decrypt yet"))
                (isDecrypting st) (decrypted st)
          | _, _, _ =>
              match decrypt_request inst addr goldCipher stakedCipher statusCipher signer with
              | inr (values, message) => mkDecryptState (Some message) false (Some values)
              | inl thrown =>
                  mkDecryptState
                    (Some (mkFeedback error (error_message thrown "Decryption failed")))
                    false (decrypted st)
              end
          end
      end
  end.

(** The [disabled] attribute and the label of the claim button. *)
Definition claimDisabled (isProcessing zamaLoading : bool) (account : option address)
    (isLoadingBalances : bool) (hasClaimed : option bool) : bool :=
  isProcessing || zamaLoading ||
  match account with Some _ => false | None => true end ||
  isLoadingBalances ||
  match hasClaimed with Some true => true | _ => false end.

Definition claimLabel (account : option address) (hasClaimed : option bool)
    (isProcessing : bool) : string :=
  match account with
  | None => "Connect wallet"
  | Some _ =>
      match hasClaimed with
      | Some true => "Gold already claimed"
      | _ => if isProcessing then "Processing..." else "Claim 100 Gold"
      end
  end.

End StakeApp.

(** A relayer and a user decryption that answer every request with the
    cleartexts, a signer that signs, and an input whose amount is 0. *)
Definition sample_instance : StakeApp.Instance :=
  StakeApp.mkInstance (fun handles account => inr (fun handle => Some (decrypt handle))).

Definition sample_signer : StakeApp.Signer := StakeApp.mkSigner (inr "0xsigned"%string).

Definition sample_userDecryptEuint (handle : euint32) (signer : address) : option Z :=
  Some (decrypt handle).

Definition input_0 : externalEuint32 := mkExternal 1005 0.

(** ** The contract *)

Definition INITIAL_GRANT : Z := 100.
Definition STATUS_OK : Z := 0.
Definition STATUS_INSUFFICIENT_BALANCE : Z := 1.
Definition STATUS_INSUFFICIENT_STAKE : Z := 2.

Section GhostStake.

Variable verifyCiphertext : address -> address -> externalEuint32 -> bytes -> bool.
Variable this : address.

Local Open Scope evm_scope.

Definition _storeEncryptedValue (storageBucket : euintMapping) (flags : boolMapping)
    (player : address) (value : euint32) : M unit :=
  sstore_euint storageBucket player value ;;
  sstore_bool flags player true ;;
  FHE.allowThis this value ;;
  FHE.allow value player.

Definition _storeStatus (player : address) (code : Z) : M unit :=
  _storeEncryptedValue ref_lastActionStatus ref_hasStatusRecord player (FHE.asEuint32 code).

Definition claimInitialGold (msg_sender : address) : M unit :=
  let player := msg_sender in
  do claimed <- sload_bool ref_hasClaimed player ;
  require (negb claimed) "Gold already claimed" ;;
  let grant := FHE.asEuint32 INITIAL_GRANT in
  do hasBalance <- sload_bool ref_hasGoldBalance player ;
  do currentBalance <-
    (if hasBalance then sload_euint ref_goldBalances player else ret (FHE.asEuint32 0)) ;
  let updatedBalance := FHE.add currentBalance grant in
  _storeEncryptedValue ref_goldBalances ref_hasGoldBalance player updatedBalance ;;
  _storeStatus player STATUS_OK ;;
  sstore_bool ref_hasClaimed player true ;;
  emit (GoldClaimed player).

Definition stakeGold (msg_sender : address)
    (encryptedAmountHandle : externalEuint32) (inputProof : bytes) : M unit :=
  let player := msg_sender in
  do encryptedAmount <-
    FHE.fromExternal verifyCiphertext this msg_sender encryptedAmountHandle inputProof ;
  do hasBalance <- sload_bool ref_hasGoldBalance player ;
  do currentBalance <-
    (if hasBalance then sload_euint ref_goldBalances player else ret (FHE.asEuint32 0)) ;
  do hasStake <- sload_bool ref_hasStakedBalance player ;
  do currentStake <-
    (if hasStake then sload_euint ref_stakedBalances player else ret (FHE.asEuint32 0)) ;
  let updatedBalance := FHE.sub currentBalance encryptedAmount in
  let updatedStake := FHE.add currentStake encryptedAmount in
  let hasSufficientBalance := FHE.ge currentBalance encryptedAmount in
  let safeBalance := FHE.select hasSufficientBalance updatedBalance currentBalance in
  let safeStake := FHE.select hasSufficientBalance updatedStake currentStake in
  let status :=
    FHE.select hasSufficientBalance
      (FHE.asEuint32 STATUS_OK) (FHE.asEuint32 STATUS_INSUFFICIENT_BALANCE) in
  _storeEncryptedValue ref_goldBalances ref_hasGoldBalance player safeBalance ;;
  _storeEncryptedValue ref_stakedBalances ref_hasStakedBalance player safeStake ;;
  _storeEncryptedValue ref_lastActionStatus ref_hasStatusRecord player status ;;
  emit (GoldStaked player).

Definition withdrawStakedGold (msg_sender : address)
    (encryptedAmountHandle : externalEuint32) (inputProof : bytes) : M unit :=
  let player := msg_sender in
  do encryptedAmount <-
    FHE.fromExternal verifyCiphertext this msg_sender encryptedAmountHandle inputProof ;
  do hasStake <- sload_bool ref_hasStakedBalance player ;
  do currentStake <-
    (if hasStake then sload_euint ref_stakedBalances player else ret (FHE.asEuint32 0)) ;
  do hasBalance <- sload_bool ref_hasGoldBalance player ;
  do currentBalance <-
    (if hasBalance then sload_euint ref_goldBalances player else ret (FHE.asEuint32 0)) ;
  let updatedStake := FHE.sub currentStake encryptedAmount in
  let updatedBalance := FHE.add currentBalance encryptedAmount in
  let hasStakeAvailable := FHE.ge currentStake encryptedAmount in
  let safeStake := FHE.select hasStakeAvailable updatedStake currentStake in
  let safeBalance := FHE.select hasStakeAvailable updatedBalance currentBalance in
  let status :=
    FHE.select hasStakeAvailable
      (FHE.asEuint32 STATUS_OK) (FHE.asEuint32 STATUS_INSUFFICIENT_STAKE) in
  _storeEncryptedValue ref_stakedBalances ref_hasStakedBalance player safeStake ;;
  _storeEncryptedValue ref_goldBalances ref_hasGoldBalance player safeBalance ;;
  _storeEncryptedValue ref_lastActionStatus ref_hasStatusRecord player status ;;
  emit (GoldWithdrawn player).

(** The view functions return the stored handle as it is. *)
Definition getGoldBalance (s : State) (player : address) : euint32 :=
  read_euint ref_goldBalances s player.

Definition getStakedBalance (s : State) (player : address) : euint32 :=
  read_euint ref_stakedBalances s player.

Definition hasClaimedInitialGold (s : State) (player : address) : bool :=
  read_bool ref_hasClaimed s player.

Definition getLastActionStatus (s : State) (player : address) : euint32 :=
  read_euint ref_lastActionStatus s player.

(** ** Transactions *)

(** [dispatch] selects the entry point named by the call. *)
Definition dispatch (msg_sender : address) (c : Call) : M unit :=
  match c with
  | call_claimInitialGold => claimInitialGold msg_sender
  | call_stakeGold h p => stakeGold msg_sender h p
  | call_withdrawStakedGold h p => withdrawStakedGold msg_sender h p
  end.

(** A transaction that reverts leaves the world as it was. *)
Definition execute (msg_sender : address) (c : Call) (s : State) : State :=
  match dispatch msg_sender c s with
  | Ok _ s' => s'
  | Revert _ => s
  end.

Definition execute_all (calls : list (address * Call)) (s : State) : State :=
  fold_left (fun st tx => execute (fst tx) (snd tx) st) calls s.

Inductive reachable : State -> Prop :=
| reachable_init : reachable initial_state
| reachable_step s msg_sender c :
    reachable s -> reachable (execute msg_sender c s).

(** ** What each entry point does to the state *)

(** The value an operation works with: the stored handle, or a trivial
    encryption of 0 when the existence flag is not set. *)
Definition resolve (flags : boolMapping) (bucket : euintMapping)
    (s : State) (player : address) : euint32 :=
  if read_bool flags s player then read_euint bucket s player else FHE.asEuint32 0.

Definition currentBalance := resolve ref_hasGoldBalance ref_goldBalances.
Definition currentStake := resolve ref_hasStakedBalance ref_stakedBalances.

(** State left by [_storeEncryptedValue]. *)
Definition stored (bucket : euintMapping) (flags : boolMapping)
    (player : address) (value : euint32) (s : State) : State :=
  add_permission value player
    (add_permission value this
      (write_bool flags player true (write_euint bucket player value s))).

(** State after a successful [claimInitialGold]. *)
Definition claimed_state (player : address) (s : State) : State :=
  log_event (GoldClaimed player)
    (write_bool ref_hasClaimed player true
      (stored ref_lastActionStatus ref_hasStatusRecord player (FHE.asEuint32 STATUS_OK)
        (stored ref_goldBalances ref_hasGoldBalance player
          (FHE.add (currentBalance s player) (FHE.asEuint32 INITIAL_GRANT)) s))).

(** The three handles committed by [stakeGold]. *)
Definition stake_safeBalance (cb amount : euint32) : euint32 :=
  FHE.select (FHE.ge cb amount) (FHE.sub cb amount) cb.
Definition stake_safeStake (cb cs amount : euint32) : euint32 :=
  FHE.select (FHE.ge cb amount) (FHE.add cs amount) cs.
Definition stake_status (cb amount : euint32) : euint32 :=
  FHE.select (FHE.ge cb amount)
    (FHE.asEuint32 STATUS_OK) (FHE.asEuint32 STATUS_INSUFFICIENT_BALANCE).

Definition staked_state (player : address) (input : externalEuint32) (s : State) : State :=
  let amount := VerifiedInput input in
  let cb := currentBalance s player in
  let cs := currentStake s player in
  log_event (GoldStaked player)
    (stored ref_lastActionStatus ref_hasStatusRecord player (stake_status cb amount)
      (stored ref_stakedBalances ref_hasStakedBalance player (stake_safeStake cb cs amount)
        (stored ref_goldBalances ref_hasGoldBalance player (stake_safeBalance cb amount) s))).

(** The three handles committed by [withdrawStakedGold]. *)
Definition withdraw_safeStake (cs amount : euint32) : euint32 :=
  FHE.select (FHE.ge cs amount) (FHE.sub cs amount) cs.
Definition withdraw_safeBalance (cs cb amount : euint32) : euint32 :=
  FHE.select (FHE.ge cs amount) (FHE.add cb amount) cb.
Definition withdraw_status (cs amount : euint32) : euint32 :=
  FHE.select (FHE.ge cs amount)
    (FHE.asEuint32 STATUS_OK) (FHE.asEuint32 STATUS_INSUFFICIENT_STAKE).

Definition withdrawn_state (player : address) (input : externalEuint32) (s : State) : State :=
  let amount := VerifiedInput input in
  let cs := currentStake s player in
  let cb := currentBalance s player in
  log_event (GoldWithdrawn player)
    (stored ref_lastActionStatus ref_hasStatusRecord player (withdraw_status cs amount)
      (stored ref_goldBalances ref_hasGoldBalance player (withdraw_safeBalance cs cb amount)
        (stored ref_stakedBalances ref_hasStakedBalance player (withdraw_safeStake cs amount) s))).

(** Every transaction is one of four cases. *)
Inductive step_case (sender : address) (s : State) : Call -> State -> Prop :=
| case_reverted c : step_case sender s c s
| case_claimed :
    read_bool ref_hasClaimed s sender = false ->
    step_case sender s call_claimInitialGold (claimed_state sender s)
| case_staked input proof :
    verifyCiphertext sender this input proof = true ->
    step_case sender s (call_stakeGold input proof) (staked_state sender input s)
| case_withdrawn input proof :
    verifyCiphertext sender this input proof = true ->
    step_case sender s (call_withdrawStakedGold input proof) (withdrawn_state sender input s).

(** ** Views used in the statements *)

(** Cleartexts, as the holder of the key reads them off the getters. *)
Definition balanceOf (s : State) (player : address) : Z :=
  decrypt (getGoldBalance s player).

Definition stakeOf (s : State) (player : address) : Z :=
  decrypt (getStakedBalance s player).

Definition statusOf (s : State) (player : address) : Z :=
  decrypt (getLastActionStatus s player).

(** Cleartext of a verified input. *)
Definition amountOf (input : externalEuint32) : Z := decrypt (VerifiedInput input).

(** Gold granted to a player so far: [INITIAL_GRANT] for each [GoldClaimed]
    event that names the player. *)
Fixpoint granted (player : address) (log : list Event) : Z :=
  match log with
  | [] => 0
  | GoldClaimed p :: rest =>
      (if Z.eqb p player then INITIAL_GRANT else 0) + granted player rest
  | _ :: rest => granted player rest
  end.

(** The existence flag that goes with each bucket. *)
Definition flag_of (bucket : euintMapping) : boolMapping :=
  match bucket with
  | ref_goldBalances => ref_hasGoldBalance
  | ref_stakedBalances => ref_hasStakedBalance
  | ref_lastActionStatus => ref_hasStatusRecord
  end.

(** Both the contract and the player may decrypt [value]. *)
Definition dual_grant (s : State) (value : euint32) (player : address) : Prop :=
  In (value, this) (acl s) /\ In (value, player) (acl s).

Definition is_stake_or_withdraw (c : Call) : bool :=
  match c with
  | call_claimInitialGold => false
  | call_stakeGold _ _ => true
  | call_withdrawStakedGold _ _ => true
  end.

(** A stake or withdraw call sent by [player]. *)
Definition is_move_of (player : address) (tx : address * Call) : bool :=
  Z.eqb (fst tx) player && is_stake_or_withdraw (snd tx).


(** The entries of [player] agree in two states. *)
Definition same_account (s s' : State) (player : address) : Prop :=
  (forall bucket, read_euint bucket s' player = read_euint bucket s player) /\
  (forall flags, read_bool flags s' player = read_bool flags s player).

(** What holds in every state the contract can be in. *)
Record invariant (s : State) : Prop := mkInvariant {
  inv_sum : forall p, balanceOf s p + stakeOf s p = granted p (events s);
  inv_claimed : forall p,
    granted p (events s) = if read_bool ref_hasClaimed s p then INITIAL_GRANT else 0;
  inv_flags : forall bucket p,
    read_bool (flag_of bucket) s p = FHE.isInitialized (read_euint bucket s p);
  inv_acl : forall bucket p,
    read_euint bucket s p <> Uninitialized -> dual_grant s (read_euint bucket s p) p
}.

(** ** Further views: the log, the public part of the state, the command
    line task *)

(** The player an event names. *)
Definition event_player (e : Event) : address :=
  match e with
  | GoldClaimed player => player
  | GoldStaked player => player
  | GoldWithdrawn player => player
  end.

(** The event with which each entry point ends. *)
Definition event_of (msg_sender : address) (c : Call) : Event :=
  match c with
  | call_claimInitialGold => GoldClaimed msg_sender
  | call_stakeGold _ _ => GoldStaked msg_sender
  | call_withdrawStakedGold _ _ => GoldWithdrawn msg_sender
  end.

(** Whether the input verifier accepts the arguments of a call;
    [claimInitialGold] has none. *)
Definition proof_accepted (msg_sender : address) (c : Call) : bool :=
  match c with
  | call_claimInitialGold => true
  | call_stakeGold input proof => verifyCiphertext msg_sender this input proof
  | call_withdrawStakedGold input proof => verifyCiphertext msg_sender this input proof
  end.

Definition same_entry_point (c1 c2 : Call) : bool :=
  match c1, c2 with
  | call_claimInitialGold, call_claimInitialGold => true
  | call_stakeGold _ _, call_stakeGold _ _ => true
  | call_withdrawStakedGold _ _, call_withdrawStakedGold _ _ => true
  | _, _ => false
  end.

(** Two states that an observer without a key cannot tell apart by the
    cleartext storage and the log: the same events and the same four flags
    for every player. *)
Definition same_public (s1 s2 : State) : Prop :=
  events s1 = events s2 /\
  forall flags player, read_bool flags s1 player = read_bool flags s2 player.

(** Two states with the same contract storage, as read through the
    mappings. *)
Definition same_storage (s1 s2 : State) : Prop :=
  (forall bucket player, read_euint bucket s1 player = read_euint bucket s2 player) /\
  (forall flags player, read_bool flags s1 player = read_bool flags s2 player).

(** tasks/GhostStake.ts, task:decrypt-balances: the three numbers the task
    prints for a player.  [userDecryptEuint] is the user decryption of the
    fhEVM plugin for that player as signer; [None] stands for a decryption
    that throws, which ends the task. *)
Definition task_decrypt_balances (userDecryptEuint : euint32 -> address -> option Z)
    (s : State) (playerAddress : address) : option (Z * Z * Z) :=
  let encryptedBalance := getGoldBalance s playerAddress in
  let encryptedStake := getStakedBalance s playerAddress in
  let encryptedStatus := getLastActionStatus s playerAddress in
  match
    (if StakeApp.is_ZERO_HASH encryptedBalance then Some 0
     else userDecryptEuint encryptedBalance playerAddress)
  with
  | None => None
  | Some balance =>
      match
        (if StakeApp.is_ZERO_HASH encryptedStake then Some 0
         else userDecryptEuint encryptedStake playerAddress)
      with
      | None => None
      | Some stake =>
          match
            (if StakeApp.is_ZERO_HASH encryptedStatus then Some 0
             else userDecryptEuint encryptedStatus playerAddress)
          with
          | None => None
          | Some status => Some (balance, stake, status)
          end
      end
  end.

(** ** Reading the state after a write *)

#[global] Instance euintMapping_eq_dec : EqDecision euintMapping.
Proof. solve_decision. Defined.

#[global] Instance boolMapping_eq_dec : EqDecision boolMapping.
Proof. solve_decision. Defined.

Lemma read_euint_write_euint r r' a b v s :
  read_euint r (write_euint r' a v s) b =
  if decide (r = r' /\ b = a) then v else read_euint r s b.
Proof.
  unfold read_euint.
  destruct r, r'; simpl; rewrite ?lookup_insert;
    repeat case_decide; simpl; intuition congruence.
Qed.

Lemma read_bool_write_bool r r' a b v s :
  read_bool r (write_bool r' a v s) b =
  if decide (r = r' /\ b = a) then v else read_bool r s b.
Proof.
  unfold read_bool.
  destruct r, r'; simpl; rewrite ?lookup_insert;
    repeat case_decide; simpl; intuition congruence.
Qed.

Lemma read_euint_write_bool r r' a b v s :
  read_euint r (write_bool r' a v s) b = read_euint r s b.
Proof. destruct r, r'; reflexivity. Qed.

Lemma read_bool_write_euint r r' a b v s :
  read_bool r (write_euint r' a v s) b = read_bool r s b.
Proof. destruct r, r'; reflexivity. Qed.

Lemma read_euint_add_permission r v who s b :
  read_euint r (add_permission v who s) b = read_euint r s b.
Proof. destruct r; reflexivity. Qed.

Lemma read_bool_add_permission r v who s b :
  read_bool r (add_permission v who s) b = read_bool r s b.
Proof. destruct r; reflexivity. Qed.

Lemma read_euint_log_event r e s b :
  read_euint r (log_event e s) b = read_euint r s b.
Proof. destruct r; reflexivity. Qed.

Lemma read_bool_log_event r e s b :
  read_bool r (log_event e s) b = read_bool r s b.
Proof. destruct r; reflexivity. Qed.

Lemma acl_write_euint r a v s : acl (write_euint r a v s) = acl s.
Proof. destruct r; reflexivity. Qed.

Lemma acl_write_bool r a v s : acl (write_bool r a v s) = acl s.
Proof. destruct r; reflexivity. Qed.

Lemma events_write_euint r a v s : events (write_euint r a v s) = events s.
Proof. destruct r; reflexivity. Qed.

Lemma events_write_bool r a v s : events (write_bool r a v s) = events s.
Proof. destruct r; reflexivity. Qed.

Lemma events_log_event e s : events (log_event e s) = events s ++ [e].
Proof. reflexivity. Qed.

Lemma acl_log_event e s : acl (log_event e s) = acl s.
Proof. reflexivity. Qed.

Lemma events_add_permission v who s : events (add_permission v who s) = events s.
Proof. reflexivity. Qed.

Lemma acl_add_permission v who s : acl (add_permission v who s) = (v, who) :: acl s.
Proof. reflexivity. Qed.

(** ** Arithmetic of decrypted values *)

Lemma wrap32_range v : 0 <= wrap32 v < uint32_modulus.
Proof. unfold wrap32, uint32_modulus. apply Z.mod_pos_bound. lia. Qed.

Lemma wrap32_small v : 0 <= v < uint32_modulus -> wrap32 v = v.
Proof. intros H. unfold wrap32. apply Z.mod_small. exact H. Qed.

Lemma decrypt_range e : 0 <= decrypt e < uint32_modulus.
Proof.
  induction e as [| v | input | a IHa b IHb | a IHa b IHb | c a IHa b IHb]; simpl;
    try apply wrap32_range.
  - unfold uint32_modulus. lia.
  - destruct (decrypt_bool c); assumption.
Qed.

Lemma decrypt_operand e : decrypt (FHE.operand e) = decrypt e.
Proof. destruct e; reflexivity. Qed.

Lemma uninitialized_iff e : e = Uninitialized <-> FHE.isInitialized e = false.
Proof. destruct e; simpl; split; congruence. Qed.

Lemma decrypt_add a b : decrypt (FHE.add a b) = wrap32 (decrypt a + decrypt b).
Proof. unfold FHE.add. simpl. now rewrite !decrypt_operand. Qed.

Lemma decrypt_sub a b : decrypt (FHE.sub a b) = wrap32 (decrypt a - decrypt b).
Proof. unfold FHE.sub. simpl. now rewrite !decrypt_operand. Qed.

Lemma decrypt_select_ge x y a b :
  decrypt (FHE.select (FHE.ge x y) a b) =
  if decrypt y <=? decrypt x then decrypt a else decrypt b.
Proof. unfold FHE.select, FHE.ge. simpl. now rewrite !decrypt_operand. Qed.


(** ** Running the entry points *)

Lemma storeEncryptedValue_run bucket flags player value s :
  _storeEncryptedValue bucket flags player value s =
  Ok tt (stored bucket flags player value s).
Proof. reflexivity. Qed.

Lemma read_euint_stored r bucket flags p v s q :
  read_euint r (stored bucket flags p v s) q =
  if decide (r = bucket /\ q = p) then v else read_euint r s q.
Proof.
  unfold stored.
  now rewrite !read_euint_add_permission, read_euint_write_bool, read_euint_write_euint.
Qed.

Lemma read_bool_stored r bucket flags p v s q :
  read_bool r (stored bucket flags p v s) q =
  if decide (r = flags /\ q = p) then true else read_bool r s q.
Proof.
  unfold stored.
  now rewrite !read_bool_add_permission, read_bool_write_bool, read_bool_write_euint.
Qed.

Lemma acl_stored bucket flags p v s :
  acl (stored bucket flags p v s) = (v, p) :: (v, this) :: acl s.
Proof.
  unfold stored. now rewrite !acl_add_permission, acl_write_bool, acl_write_euint.
Qed.

Lemma events_stored bucket flags p v s :
  events (stored bucket flags p v s) = events s.
Proof.
  unfold stored. now rewrite !events_add_permission, events_write_bool, events_write_euint.
Qed.

Lemma claimInitialGold_run player s :
  claimInitialGold player s =
  if read_bool ref_hasClaimed s player
  then Revert (ErrorString "Gold already claimed")
  else Ok tt (claimed_state player s).
Proof.
  unfold claimInitialGold, claimed_state, currentBalance, resolve,
    bind, sload_bool, require.
  destruct (read_bool ref_hasClaimed s player); [reflexivity|].
  simpl. destruct (read_bool ref_hasGoldBalance s player); reflexivity.
Qed.

Lemma stakeGold_run player input proof s :
  stakeGold player input proof s =
  if verifyCiphertext player this input proof
  then Ok tt (staked_state player input s)
  else Revert InvalidProof.
Proof.
  unfold stakeGold, staked_state, currentBalance, currentStake, resolve,
    FHE.fromExternal.
  destruct (verifyCiphertext player this input proof); [|reflexivity].
  destruct (read_bool ref_hasGoldBalance s player) eqn:Eb,
    (read_bool ref_hasStakedBalance s player) eqn:Es;
    unfold bind, sload_bool; simpl; rewrite ?Eb; simpl; rewrite ?Es; reflexivity.
Qed.

Lemma withdrawStakedGold_run player input proof s :
  withdrawStakedGold player input proof s =
  if verifyCiphertext player this input proof
  then Ok tt (withdrawn_state player input s)
  else Revert InvalidProof.
Proof.
  unfold withdrawStakedGold, withdrawn_state, currentBalance, currentStake,
    resolve, FHE.fromExternal.
  destruct (verifyCiphertext player this input proof); [|reflexivity].
  destruct (read_bool ref_hasGoldBalance s player) eqn:Eb,
    (read_bool ref_hasStakedBalance s player) eqn:Es;
    unfold bind, sload_bool; simpl; rewrite ?Es; simpl; rewrite ?Eb; reflexivity.
Qed.

Lemma execute_cases sender c s : step_case sender s c (execute sender c s).
Proof.
  unfold execute, dispatch. destruct c as [| input proof | input proof].
  - rewrite claimInitialGold_run.
    destruct (read_bool ref_hasClaimed s sender) eqn:E; constructor; assumption.
  - rewrite stakeGold_run.
    destruct (verifyCiphertext sender this input proof) eqn:E; constructor; assumption.
  - rewrite withdrawStakedGold_run.
    destruct (verifyCiphertext sender this input proof) eqn:E; constructor; assumption.
Qed.

(** ** The account of the sender after each entry point *)

Lemma read_euint_claimed_state r p s q :
  read_euint r (claimed_state p s) q =
  if decide (q = p) then
    match r with
    | ref_goldBalances => FHE.add (currentBalance s p) (FHE.asEuint32 INITIAL_GRANT)
    | ref_stakedBalances => read_euint r s q
    | ref_lastActionStatus => FHE.asEuint32 STATUS_OK
    end
  else read_euint r s q.
Proof.
  unfold claimed_state.
  rewrite read_euint_log_event, read_euint_write_bool, !read_euint_stored.
  destruct r; repeat case_decide; intuition congruence.
Qed.

Lemma read_bool_claimed_state r p s q :
  read_bool r (claimed_state p s) q =
  if decide (q = p) then
    match r with
    | ref_hasStakedBalance => read_bool r s q
    | _ => true
    end
  else read_bool r s q.
Proof.
  unfold claimed_state.
  rewrite read_bool_log_event, read_bool_write_bool, !read_bool_stored.
  destruct r; repeat case_decide; intuition congruence.
Qed.

Lemma events_claimed_state p s :
  events (claimed_state p s) = events s ++ [GoldClaimed p].
Proof.
  unfold claimed_state. now rewrite events_log_event, events_write_bool, !events_stored.
Qed.

Lemma acl_claimed_state p s :
  acl (claimed_state p s) =
  let balance := FHE.add (currentBalance s p) (FHE.asEuint32 INITIAL_GRANT) in
  let status := FHE.asEuint32 STATUS_OK in
  (status, p) :: (status, this) :: (balance, p) :: (balance, this) :: acl s.
Proof.
  unfold claimed_state. now rewrite acl_log_event, acl_write_bool, !acl_stored.
Qed.

Lemma read_euint_staked_state r p input s q :
  read_euint r (staked_state p input s) q =
  if decide (q = p) then
    let amount := VerifiedInput input in
    match r with
    | ref_goldBalances => stake_safeBalance (currentBalance s p) amount
    | ref_stakedBalances => stake_safeStake (currentBalance s p) (currentStake s p) amount
    | ref_lastActionStatus => stake_status (currentBalance s p) amount
    end
  else read_euint r s q.
Proof.
  unfold staked_state. cbv zeta.
  rewrite read_euint_log_event, !read_euint_stored.
  destruct r; repeat case_decide; intuition congruence.
Qed.

Lemma read_bool_staked_state r p input s q :
  read_bool r (staked_state p input s) q =
  if decide (q = p) then
    match r with
    | ref_hasClaimed => read_bool r s q
    | _ => true
    end
  else read_bool r s q.
Proof.
  unfold staked_state. cbv zeta.
  rewrite read_bool_log_event, !read_bool_stored.
  destruct r; repeat case_decide; intuition congruence.
Qed.

Lemma events_staked_state p input s :
  events (staked_state p input s) = events s ++ [GoldStaked p].
Proof.
  unfold staked_state. cbv zeta. now rewrite events_log_event, !events_stored.
Qed.

Lemma acl_staked_state p input s :
  acl (staked_state p input s) =
  let amount := VerifiedInput input in
  let balance := stake_safeBalance (currentBalance s p) amount in
  let stake := stake_safeStake (currentBalance s p) (currentStake s p) amount in
  let status := stake_status (currentBalance s p) amount in
  (status, p) :: (status, this) :: (stake, p) :: (stake, this) ::
  (balance, p) :: (balance, this) :: acl s.
Proof.
  unfold staked_state. cbv zeta. now rewrite acl_log_event, !acl_stored.
Qed.

Lemma read_euint_withdrawn_state r p input s q :
  read_euint r (withdrawn_state p input s) q =
  if decide (q = p) then
    let amount := VerifiedInput input in
    match r with
    | ref_goldBalances => withdraw_safeBalance (currentStake s p) (currentBalance s p) amount
    | ref_stakedBalances => withdraw_safeStake (currentStake s p) amount
    | ref_lastActionStatus => withdraw_status (currentStake s p) amount
    end
  else read_euint r s q.
Proof.
  unfold withdrawn_state. cbv zeta.
  rewrite read_euint_log_event, !read_euint_stored.
  destruct r; repeat case_decide; intuition congruence.
Qed.

Lemma read_bool_withdrawn_state r p input s q :
  read_bool r (withdrawn_state p input s) q =
  if decide (q = p) then
    match r with
    | ref_hasClaimed => read_bool r s q
    | _ => true
    end
  else read_bool r s q.
Proof.
  unfold withdrawn_state. cbv zeta.
  rewrite read_bool_log_event, !read_bool_stored.
  destruct r; repeat case_decide; intuition congruence.
Qed.

Lemma events_withdrawn_state p input s :
  events (withdrawn_state p input s) = events s ++ [GoldWithdrawn p].
Proof.
  unfold withdrawn_state. cbv zeta. now rewrite events_log_event, !events_stored.
Qed.

Lemma acl_withdrawn_state p input s :
  acl (withdrawn_state p input s) =
  let amount := VerifiedInput input in
  let stake := withdraw_safeStake (currentStake s p) amount in
  let balance := withdraw_safeBalance (currentStake s p) (currentBalance s p) amount in
  let status := withdraw_status (currentStake s p) amount in
  (status, p) :: (status, this) :: (balance, p) :: (balance, this) ::
  (stake, p) :: (stake, this) :: acl s.
Proof.
  unfold withdrawn_state. cbv zeta. now rewrite acl_log_event, !acl_stored.
Qed.

(** ** Cleartexts of the committed handles *)

Lemma decrypt_stake_safeBalance cb amount :
  decrypt (stake_safeBalance cb amount) =
  if decrypt amount <=? decrypt cb then wrap32 (decrypt cb - decrypt amount) else decrypt cb.
Proof. unfold stake_safeBalance. now rewrite decrypt_select_ge, decrypt_sub. Qed.

Lemma decrypt_stake_safeStake cb cs amount :
  decrypt (stake_safeStake cb cs amount) =
  if decrypt amount <=? decrypt cb then wrap32 (decrypt cs + decrypt amount) else decrypt cs.
Proof. unfold stake_safeStake. now rewrite decrypt_select_ge, decrypt_add. Qed.

Lemma decrypt_stake_status cb amount :
  decrypt (stake_status cb amount) =
  if decrypt amount <=? decrypt cb then STATUS_OK else STATUS_INSUFFICIENT_BALANCE.
Proof. unfold stake_status. now rewrite decrypt_select_ge. Qed.

Lemma decrypt_withdraw_safeStake cs amount :
  decrypt (withdraw_safeStake cs amount) =
  if decrypt amount <=? decrypt cs then wrap32 (decrypt cs - decrypt amount) else decrypt cs.
Proof. unfold withdraw_safeStake. now rewrite decrypt_select_ge, decrypt_sub. Qed.

Lemma decrypt_withdraw_safeBalance cs cb amount :
  decrypt (withdraw_safeBalance cs cb amount) =
  if decrypt amount <=? decrypt cs then wrap32 (decrypt cb + decrypt amount) else decrypt cb.
Proof. unfold withdraw_safeBalance. now rewrite decrypt_select_ge, decrypt_add. Qed.

Lemma decrypt_withdraw_status cs amount :
  decrypt (withdraw_status cs amount) =
  if decrypt amount <=? decrypt cs then STATUS_OK else STATUS_INSUFFICIENT_STAKE.
Proof. unfold withdraw_status. now rewrite decrypt_select_ge. Qed.

(** Moving [a] out of a slot that holds at least [a] into its sibling never
    wraps when the two slots together stay below 2^32. *)
Lemma move_exact x y a :
  0 <= a -> a <= x -> 0 <= y -> x + y < uint32_modulus ->
  wrap32 (x - a) = x - a /\ wrap32 (y + a) = y + a.
Proof.
  intros Ha Hax Hy Hsum. split; apply wrap32_small; lia.
Qed.

Lemma granted_app p l1 l2 : granted p (l1 ++ l2) = granted p l1 + granted p l2.
Proof.
  induction l1 as [| e l1 IH]; simpl; [reflexivity|].
  destruct e; rewrite IH; lia.
Qed.

(** ** The invariant *)

Lemma resolve_decrypt bucket s p :
  read_bool (flag_of bucket) s p = FHE.isInitialized (read_euint bucket s p) ->
  decrypt (resolve (flag_of bucket) bucket s p) = decrypt (read_euint bucket s p).
Proof.
  intros H. unfold resolve. rewrite H.
  destruct (read_euint bucket s p); reflexivity.
Qed.

Lemma decrypt_currentBalance s p :
  invariant s -> decrypt (currentBalance s p) = balanceOf s p.
Proof. intros I. apply (resolve_decrypt ref_goldBalances), (inv_flags s I). Qed.

Lemma decrypt_currentStake s p :
  invariant s -> decrypt (currentStake s p) = stakeOf s p.
Proof. intros I. apply (resolve_decrypt ref_stakedBalances), (inv_flags s I). Qed.

Lemma invariant_total s p :
  invariant s ->
  0 <= balanceOf s p /\ 0 <= stakeOf s p /\
  balanceOf s p + stakeOf s p <= INITIAL_GRANT.
Proof.
  intros I.
  pose proof (decrypt_range (getGoldBalance s p)) as Hb.
  pose proof (decrypt_range (getStakedBalance s p)) as Hs.
  pose proof (inv_sum s I p) as Hsum. pose proof (inv_claimed s I p) as Hc.
  unfold balanceOf, stakeOf in *.
  destruct (read_bool ref_hasClaimed s p); unfold INITIAL_GRANT in *; lia.
Qed.

Lemma invariant_initial : invariant initial_state.
Proof.
  split.
  - intros p. reflexivity.
  - intros p. reflexivity.
  - intros bucket p. destruct bucket; reflexivity.
  - intros bucket p H. destruct bucket; exfalso; apply H; reflexivity.
Qed.

Lemma invariant_unclaimed s p :
  invariant s -> read_bool ref_hasClaimed s p = false ->
  balanceOf s p = 0 /\ stakeOf s p = 0 /\ granted p (events s) = 0.
Proof.
  intros I Hc.
  pose proof (decrypt_range (getGoldBalance s p)) as Hb.
  pose proof (decrypt_range (getStakedBalance s p)) as Hs.
  pose proof (inv_sum s I p) as Hsum. pose proof (inv_claimed s I p) as Hg.
  rewrite Hc in Hg. unfold balanceOf, stakeOf in *. lia.
Qed.

Ltac split_account :=
  repeat case_decide; subst; try congruence.

Ltac weaken_grant I :=
  let H1 := fresh in let H2 := fresh in
  match goal with
  | H : read_euint ?b ?s ?q <> Uninitialized |- _ =>
      destruct (inv_acl s I b q H) as [H1 H2]; split; simpl; tauto
  end.

Lemma invariant_claimed_state s p :
  invariant s -> read_bool ref_hasClaimed s p = false ->
  invariant (claimed_state p s).
Proof.
  intros I Hc. destruct (invariant_unclaimed s p I Hc) as (Hb & Hs & Hg).
  split.
  - intros q. unfold balanceOf, stakeOf, getGoldBalance, getStakedBalance.
    rewrite !read_euint_claimed_state, events_claimed_state, granted_app. simpl.
    split_account.
    + rewrite Z.eqb_refl, decrypt_add, decrypt_currentBalance by assumption.
      fold (getStakedBalance s p). fold (stakeOf s p).
      rewrite Hb, Hs, Hg. reflexivity.
    + assert (Z.eqb p q = false) as -> by (apply Z.eqb_neq; congruence).
      pose proof (inv_sum s I q) as Hq. unfold balanceOf, stakeOf in Hq.
      unfold getGoldBalance, getStakedBalance in Hq. lia.
  - intros q. rewrite events_claimed_state, granted_app, read_bool_claimed_state. simpl.
    split_account.
    + rewrite Z.eqb_refl, Hg. reflexivity.
    + assert (Z.eqb p q = false) as -> by (apply Z.eqb_neq; congruence).
      pose proof (inv_claimed s I q). lia.
  - intros bucket q. rewrite read_bool_claimed_state, read_euint_claimed_state.
    destruct bucket; split_account; simpl; try reflexivity;
      try apply (inv_flags s I ref_goldBalances);
      try apply (inv_flags s I ref_stakedBalances);
      try apply (inv_flags s I ref_lastActionStatus).
  - intros bucket q. unfold dual_grant.
    rewrite acl_claimed_state, read_euint_claimed_state. cbv zeta.
    destruct bucket; split_account; intros Hinit;
      try weaken_grant I; split; simpl; tauto.
Qed.

Lemma views_staked_state s p input :
  let amount := VerifiedInput input in
  balanceOf (staked_state p input s) p =
    decrypt (stake_safeBalance (currentBalance s p) amount) /\
  stakeOf (staked_state p input s) p =
    decrypt (stake_safeStake (currentBalance s p) (currentStake s p) amount) /\
  statusOf (staked_state p input s) p =
    decrypt (stake_status (currentBalance s p) amount).
Proof.
  unfold balanceOf, stakeOf, statusOf, getGoldBalance, getStakedBalance, getLastActionStatus.
  rewrite !read_euint_staked_state. cbv zeta.
  destruct (decide (p = p)); [auto | congruence].
Qed.

Lemma views_withdrawn_state s p input :
  let amount := VerifiedInput input in
  balanceOf (withdrawn_state p input s) p =
    decrypt (withdraw_safeBalance (currentStake s p) (currentBalance s p) amount) /\
  stakeOf (withdrawn_state p input s) p =
    decrypt (withdraw_safeStake (currentStake s p) amount) /\
  statusOf (withdrawn_state p input s) p =
    decrypt (withdraw_status (currentStake s p) amount).
Proof.
  unfold balanceOf, stakeOf, statusOf, getGoldBalance, getStakedBalance, getLastActionStatus.
  rewrite !read_euint_withdrawn_state. cbv zeta.
  destruct (decide (p = p)); [auto | congruence].
Qed.

(** Cleartexts of the sender's two slots after [stakeGold], in a state that
    satisfies the invariant. *)
Lemma staked_state_cleartexts s p input :
  invariant s ->
  let s' := staked_state p input s in
  let a := amountOf input in
  (a <= balanceOf s p ->
     balanceOf s' p = balanceOf s p - a /\ stakeOf s' p = stakeOf s p + a /\
     statusOf s' p = STATUS_OK) /\
  (balanceOf s p < a ->
     balanceOf s' p = balanceOf s p /\ stakeOf s' p = stakeOf s p /\
     statusOf s' p = STATUS_INSUFFICIENT_BALANCE).
Proof.
  intros I s' a. unfold s'.
  destruct (invariant_total s p I) as (Hb & Hs & Hsum).
  pose proof (decrypt_range (VerifiedInput input)) as Ha. fold (amountOf input) in Ha.
  assert (balanceOf s p + stakeOf s p < uint32_modulus) as Hlt
    by (unfold INITIAL_GRANT, uint32_modulus in *; lia).
  destruct (views_staked_state s p input) as (-> & -> & ->). cbv zeta.
  rewrite decrypt_stake_safeBalance, decrypt_stake_safeStake, decrypt_stake_status,
    decrypt_currentBalance, decrypt_currentStake by assumption.
  fold (amountOf input). fold a. fold a in Ha.
  split; intros Hcmp.
  - destruct (move_exact (balanceOf s p) (stakeOf s p) a) as [E1 E2]; try lia.
    assert ((a <=? balanceOf s p) = true) as -> by (apply Z.leb_le; lia).
    rewrite E1, E2. auto.
  - assert ((a <=? balanceOf s p) = false) as -> by (apply Z.leb_gt; lia).
    auto.
Qed.

Lemma withdrawn_state_cleartexts s p input :
  invariant s ->
  let s' := withdrawn_state p input s in
  let a := amountOf input in
  (a <= stakeOf s p ->
     stakeOf s' p = stakeOf s p - a /\ balanceOf s' p = balanceOf s p + a /\
     statusOf s' p = STATUS_OK) /\
  (stakeOf s p < a ->
     stakeOf s' p = stakeOf s p /\ balanceOf s' p = balanceOf s p /\
     statusOf s' p = STATUS_INSUFFICIENT_STAKE).
Proof.
  intros I s' a. unfold s'.
  destruct (invariant_total s p I) as (Hb & Hs & Hsum).
  pose proof (decrypt_range (VerifiedInput input)) as Ha. fold (amountOf input) in Ha.
  assert (stakeOf s p + balanceOf s p < uint32_modulus) as Hlt
    by (unfold INITIAL_GRANT, uint32_modulus in *; lia).
  destruct (views_withdrawn_state s p input) as (-> & -> & ->). cbv zeta.
  rewrite decrypt_withdraw_safeBalance, decrypt_withdraw_safeStake, decrypt_withdraw_status,
    decrypt_currentBalance, decrypt_currentStake by assumption.
  fold (amountOf input). fold a. fold a in Ha.
  split; intros Hcmp.
  - destruct (move_exact (stakeOf s p) (balanceOf s p) a) as [E1 E2]; try lia.
    assert ((a <=? stakeOf s p) = true) as -> by (apply Z.leb_le; lia).
    rewrite E1, E2. auto.
  - assert ((a <=? stakeOf s p) = false) as -> by (apply Z.leb_gt; lia).
    auto.
Qed.

Lemma invariant_staked_state s p input :
  invariant s -> invariant (staked_state p input s).
Proof.
  intros I. split.
  - intros q. rewrite events_staked_state, granted_app. simpl.
    destruct (decide (q = p)) as [->|Hne].
    + destruct (staked_state_cleartexts s p input I) as [Hok Hfail].
      pose proof (inv_sum s I p).
      destruct (Z_le_gt_dec (amountOf input) (balanceOf s p)) as [Hle|Hgt].
      * destruct (Hok Hle) as (-> & -> & _). lia.
      * destruct Hfail as (-> & -> & _); lia.
    + unfold balanceOf, stakeOf, getGoldBalance, getStakedBalance.
      rewrite !read_euint_staked_state. split_account.
      pose proof (inv_sum s I q) as Hq.
      unfold balanceOf, stakeOf, getGoldBalance, getStakedBalance in Hq. lia.
  - intros q. rewrite events_staked_state, granted_app, read_bool_staked_state. simpl.
    pose proof (inv_claimed s I q). split_account; lia.
  - intros bucket q. rewrite read_bool_staked_state, read_euint_staked_state.
    destruct bucket; split_account; simpl; try reflexivity;
      try apply (inv_flags s I ref_goldBalances);
      try apply (inv_flags s I ref_stakedBalances);
      try apply (inv_flags s I ref_lastActionStatus).
  - intros bucket q. unfold dual_grant.
    rewrite acl_staked_state, read_euint_staked_state. cbv zeta.
    destruct bucket; split_account; intros Hinit;
      try weaken_grant I; split; simpl; tauto.
Qed.

Lemma invariant_withdrawn_state s p input :
  invariant s -> invariant (withdrawn_state p input s).
Proof.
  intros I. split.
  - intros q. rewrite events_withdrawn_state, granted_app. simpl.
    destruct (decide (q = p)) as [->|Hne].
    + destruct (withdrawn_state_cleartexts s p input I) as [Hok Hfail].
      pose proof (inv_sum s I p).
      destruct (Z_le_gt_dec (amountOf input) (stakeOf s p)) as [Hle|Hgt].
      * destruct (Hok Hle) as (-> & -> & _). lia.
      * destruct Hfail as (-> & -> & _); lia.
    + unfold balanceOf, stakeOf, getGoldBalance, getStakedBalance.
      rewrite !read_euint_withdrawn_state. split_account.
      pose proof (inv_sum s I q) as Hq.
      unfold balanceOf, stakeOf, getGoldBalance, getStakedBalance in Hq. lia.
  - intros q. rewrite events_withdrawn_state, granted_app, read_bool_withdrawn_state. simpl.
    pose proof (inv_claimed s I q). split_account; lia.
  - intros bucket q. rewrite read_bool_withdrawn_state, read_euint_withdrawn_state.
    destruct bucket; split_account; simpl; try reflexivity;
      try apply (inv_flags s I ref_goldBalances);
      try apply (inv_flags s I ref_stakedBalances);
      try apply (inv_flags s I ref_lastActionStatus).
  - intros bucket q. unfold dual_grant.
    rewrite acl_withdrawn_state, read_euint_withdrawn_state. cbv zeta.
    destruct bucket; split_account; intros Hinit;
      try weaken_grant I; split; simpl; tauto.
Qed.

Lemma invariant_execute sender c s :
  invariant s -> invariant (execute sender c s).
Proof.
  intros I. destruct (execute_cases sender c s);
    auto using invariant_claimed_state, invariant_staked_state, invariant_withdrawn_state.
Qed.

Lemma reachable_invariant s : reachable s -> invariant s.
Proof.
  induction 1; auto using invariant_initial, invariant_execute.
Qed.

Lemma reachable_execute_all calls s :
  reachable s -> reachable (execute_all calls s).
Proof.
  revert s. induction calls as [| [sender c] calls IH]; intros s R; simpl.
  - exact R.
  - apply IH. now constructor.
Qed.

Lemma reachable_run calls : reachable (execute_all calls initial_state).
Proof. apply reachable_execute_all. constructor. Qed.

Lemma granted_execute_move sender c s p :
  is_stake_or_withdraw c = true ->
  granted p (events (execute sender c s)) = granted p (events s).
Proof.
  intros Hc. destruct (execute_cases sender c s); try discriminate.
  - reflexivity.
  - rewrite events_staked_state, granted_app. simpl. lia.
  - rewrite events_withdrawn_state, granted_app. simpl. lia.
Qed.

Lemma sum_execute_move sender c s p :
  reachable s -> is_stake_or_withdraw c = true ->
  balanceOf (execute sender c s) p + stakeOf (execute sender c s) p =
  balanceOf s p + stakeOf s p.
Proof.
  intros R Hc.
  pose proof (reachable_invariant _ (reachable_step _ sender c R)) as I'.
  pose proof (reachable_invariant _ R) as I.
  rewrite (inv_sum _ I' p), (inv_sum _ I p). now apply granted_execute_move.
Qed.

Lemma claimed_state_cleartexts s p :
  invariant s -> read_bool ref_hasClaimed s p = false ->
  balanceOf (claimed_state p s) p = INITIAL_GRANT /\
  stakeOf (claimed_state p s) p = 0 /\
  statusOf (claimed_state p s) p = STATUS_OK /\
  hasClaimedInitialGold (claimed_state p s) p = true.
Proof.
  intros I Hc. destruct (invariant_unclaimed s p I Hc) as (Hb & Hs & _).
  unfold balanceOf, stakeOf, statusOf, hasClaimedInitialGold,
    getGoldBalance, getStakedBalance, getLastActionStatus.
  rewrite !read_euint_claimed_state, read_bool_claimed_state.
  destruct (decide (p = p)); [|congruence].
  rewrite decrypt_add, decrypt_currentBalance, Hb by assumption.
  repeat split; try reflexivity. exact Hs.
Qed.

Lemma execute_claim_unclaimed s p :
  read_bool ref_hasClaimed s p = false ->
  execute p call_claimInitialGold s = claimed_state p s.
Proof.
  intros Hc. unfold execute, dispatch. now rewrite claimInitialGold_run, Hc.
Qed.

Lemma execute_claim_claimed s p :
  read_bool ref_hasClaimed s p = true ->
  execute p call_claimInitialGold s = s.
Proof.
  intros Hc. unfold execute, dispatch. now rewrite claimInitialGold_run, Hc.
Qed.

Lemma hasClaimed_execute sender c s p :
  read_bool ref_hasClaimed (execute sender c s) p = read_bool ref_hasClaimed s p \/
  (sender = p /\ c = call_claimInitialGold /\
   read_bool ref_hasClaimed s p = false /\
   execute sender c s = claimed_state p s).
Proof.
  destruct (execute_cases sender c s) as [c | Hc | input proof Hv | input proof Hv].
  - now left.
  - destruct (decide (p = sender)) as [->|Hne].
    + right. auto.
    + left. rewrite read_bool_claimed_state. split_account.
  - left. rewrite read_bool_staked_state. split_account.
  - left. rewrite read_bool_withdrawn_state. split_account.
Qed.

Lemma hasClaimed_execute_mono sender c s p :
  read_bool ref_hasClaimed s p = true ->
  read_bool ref_hasClaimed (execute sender c s) p = true.
Proof.
  intros Hc. destruct (hasClaimed_execute sender c s p) as [-> | (_ & _ & Hf & _)];
    congruence.
Qed.

Lemma hasClaimed_execute_all_mono calls s p :
  read_bool ref_hasClaimed s p = true ->
  read_bool ref_hasClaimed (execute_all calls s) p = true.
Proof.
  revert s. induction calls as [| [sender c] calls IH]; intros s Hc; simpl.
  - exact Hc.
  - apply IH. now apply hasClaimed_execute_mono.
Qed.

Ltac show_handles :=
  unfold stake_safeBalance, stake_safeStake, stake_status,
    withdraw_safeBalance, withdraw_safeStake, withdraw_status,
    FHE.select, FHE.add, FHE.asEuint32 in *.

(** A transaction changes a stored handle only in the account of its sender,
    and what it stores is a handle made by the FHE library. *)
Lemma written_slot sender c s bucket q :
  read_euint bucket (execute sender c s) q <> read_euint bucket s q ->
  q = sender /\ read_euint bucket (execute sender c s) q <> Uninitialized.
Proof.
  destruct (execute_cases sender c s) as [c | Hc | input proof Hv | input proof Hv].
  - congruence.
  - rewrite read_euint_claimed_state. case_decide; [|congruence].
    destruct bucket; intros Hw; split; show_handles; congruence.
  - rewrite read_euint_staked_state. cbv zeta. case_decide; [|congruence].
    destruct bucket; intros Hw; split; show_handles; congruence.
  - rewrite read_euint_withdrawn_state. cbv zeta. case_decide; [|congruence].
    destruct bucket; intros Hw; split; show_handles; congruence.
Qed.

Lemma frame_execute sender c s q :
  q <> sender -> same_account s (execute sender c s) q.
Proof.
  intros Hne. unfold same_account.
  destruct (execute_cases sender c s) as [c | Hc | input proof Hv | input proof Hv].
  - auto.
  - split; intros r; [rewrite read_euint_claimed_state | rewrite read_bool_claimed_state];
      split_account.
  - split; intros r; [rewrite read_euint_staked_state | rewrite read_bool_staked_state];
      split_account.
  - split; intros r; [rewrite read_euint_withdrawn_state | rewrite read_bool_withdrawn_state];
      split_account.
Qed.




(** ** The properties of the ledger *)

(** C1. Conservation: in a state the contract can be in, any sequence of
    stakeGold and withdrawStakedGold calls sent by a player (accepted or
    reverted, sufficient or not) leaves the decrypted sum of the player's
    balance and stake as it was, and that sum is the Gold granted to the
    player so far. *)
Theorem conservation s p calls :
  reachable s ->
  forallb (is_move_of p) calls = true ->
  let s' := execute_all calls s in
  balanceOf s' p + stakeOf s' p = balanceOf s p + stakeOf s p /\
  balanceOf s' p + stakeOf s' p = granted p (events s').
Proof.
  intros R Hcalls s'. split.
  - subst s'. revert s R Hcalls.
    induction calls as [| [sender c] calls IH]; intros s R Hcalls; simpl in *.
    + reflexivity.
    + apply andb_prop in Hcalls as [Hhead Htail].
      apply andb_prop in Hhead as [_ Hc]. simpl in Hc.
      rewrite IH by (auto using reachable_step).
      now apply sum_execute_move.
  - apply inv_sum, reachable_invariant, reachable_execute_all, R.
Qed.

(** C2. Stake semantics: a stakeGold call whose proof verifies succeeds and
    commits, for balance, stake and status, the confidential select between
    the candidate computed for success and the pass-through value, keyed by
    currentBalance >= amount (absent slots resolving to a trivial encryption
    of zero).  In cleartext: when the amount is at most the balance, the
    balance decreases and the stake increases by exactly the amount and the
    status is 0; otherwise balance and stake decrypt to their values before
    the call and the status decrypts to 1. *)
Theorem stakeGold_semantics s p input proof :
  reachable s ->
  verifyCiphertext p this input proof = true ->
  let s' := execute p (call_stakeGold input proof) s in
  let amount := VerifiedInput input in
  let cb := currentBalance s p in
  let cs := currentStake s p in
  stakeGold p input proof s = Ok tt s' /\
  getGoldBalance s' p = FHE.select (FHE.ge cb amount) (FHE.sub cb amount) cb /\
  getStakedBalance s' p = FHE.select (FHE.ge cb amount) (FHE.add cs amount) cs /\
  getLastActionStatus s' p =
    FHE.select (FHE.ge cb amount)
      (FHE.asEuint32 STATUS_OK) (FHE.asEuint32 STATUS_INSUFFICIENT_BALANCE) /\
  decrypt cb = balanceOf s p /\ decrypt cs = stakeOf s p /\
  if amountOf input <=? balanceOf s p
  then balanceOf s' p = balanceOf s p - amountOf input /\
       stakeOf s' p = stakeOf s p + amountOf input /\
       statusOf s' p = 0
  else balanceOf s' p = balanceOf s p /\
       stakeOf s' p = stakeOf s p /\
       statusOf s' p = 1.
Proof.
  intros R Hv s' amount cb cs.
  pose proof (reachable_invariant _ R) as I.
  assert (s' = staked_state p input s) as ->.
  { unfold s', execute, dispatch. now rewrite stakeGold_run, Hv. }
  split; [now rewrite stakeGold_run, Hv|].
  unfold getGoldBalance, getStakedBalance, getLastActionStatus.
  rewrite !read_euint_staked_state. cbv zeta.
  destruct (decide (p = p)); [|congruence].
  repeat (split; [reflexivity || (now apply decrypt_currentBalance)
                  || (now apply decrypt_currentStake)|]).
  destruct (staked_state_cleartexts s p input I) as [Hok Hfail].
  destruct (amountOf input <=? balanceOf s p) eqn:E.
  - apply Hok. now apply Z.leb_le.
  - apply Hfail. now apply Z.leb_gt.
Qed.

(** C3. Withdraw semantics: a withdrawStakedGold call whose proof verifies
    succeeds; when the amount is at most the stake, exactly the amount moves
    from the stake back to the balance and the status is 0; otherwise both
    slots decrypt to their values before the call and the status decrypts to
    2.  In both cases the call appends exactly one event to the log,
    GoldWithdrawn for the sender. *)
Theorem withdrawStakedGold_semantics s p input proof :
  reachable s ->
  verifyCiphertext p this input proof = true ->
  let s' := execute p (call_withdrawStakedGold input proof) s in
  let amount := VerifiedInput input in
  let cs := currentStake s p in
  let cb := currentBalance s p in
  withdrawStakedGold p input proof s = Ok tt s' /\
  getStakedBalance s' p = FHE.select (FHE.ge cs amount) (FHE.sub cs amount) cs /\
  getGoldBalance s' p = FHE.select (FHE.ge cs amount) (FHE.add cb amount) cb /\
  getLastActionStatus s' p =
    FHE.select (FHE.ge cs amount)
      (FHE.asEuint32 STATUS_OK) (FHE.asEuint32 STATUS_INSUFFICIENT_STAKE) /\
  events s' = events s ++ [GoldWithdrawn p] /\
  if amountOf input <=? stakeOf s p
  then stakeOf s' p = stakeOf s p - amountOf input /\
       balanceOf s' p = balanceOf s p + amountOf input /\
       statusOf s' p = 0
  else stakeOf s' p = stakeOf s p /\
       balanceOf s' p = balanceOf s p /\
       statusOf s' p = 2.
Proof.
  intros R Hv s' amount cs cb.
  pose proof (reachable_invariant _ R) as I.
  assert (s' = withdrawn_state p input s) as ->.
  { unfold s', execute, dispatch. now rewrite withdrawStakedGold_run, Hv. }
  split; [now rewrite withdrawStakedGold_run, Hv|].
  unfold getGoldBalance, getStakedBalance, getLastActionStatus.
  rewrite !read_euint_withdrawn_state, events_withdrawn_state. cbv zeta.
  destruct (decide (p = p)); [|congruence].
  repeat (split; [reflexivity|]).
  destruct (withdrawn_state_cleartexts s p input I) as [Hok Hfail].
  destruct (amountOf input <=? stakeOf s p) eqn:E.
  - apply Hok. now apply Z.leb_le.
  - apply Hfail. now apply Z.leb_gt.
Qed.

(** C4. One-time claim: after a first successful claimInitialGold by a
    player, and whatever calls follow, a second claimInitialGold by the same
    player reverts with the message of the require on hasClaimed, and the
    state after that transaction is the state before it: no event, no slot of
    any player changed, the balance of 100 still there.  The revert happens
    exactly when hasClaimed of the sender is already true. *)
Theorem second_claim_aborts s p calls :
  reachable s ->
  hasClaimedInitialGold s p = false ->
  let s1 := execute p call_claimInitialGold s in
  let s2 := execute_all calls s1 in
  claimInitialGold p s = Ok tt s1 /\
  claimInitialGold p s2 = Revert (ErrorString "Gold already claimed") /\
  execute p call_claimInitialGold s2 = s2 /\
  balanceOf (execute p call_claimInitialGold s1) p = INITIAL_GRANT /\
  (forall t q,
     claimInitialGold q t = Revert (ErrorString "Gold already claimed") <->
     hasClaimedInitialGold t q = true) /\
  (forall t q,
     hasClaimedInitialGold t q = false -> exists t', claimInitialGold q t = Ok tt t').
Proof.
  intros R Hc s1 s2. unfold hasClaimedInitialGold in *.
  pose proof (reachable_invariant _ R) as I.
  assert (s1 = claimed_state p s) as E1 by now apply execute_claim_unclaimed.
  destruct (claimed_state_cleartexts s p I Hc) as (Hb & _ & _ & Hc1).
  unfold hasClaimedInitialGold in Hc1. rewrite <- E1 in Hb, Hc1.
  assert (read_bool ref_hasClaimed s2 p = true) as Hc2
    by now apply hasClaimed_execute_all_mono.
  repeat split.
  - now rewrite claimInitialGold_run, Hc, E1.
  - now rewrite claimInitialGold_run, Hc2.
  - now apply execute_claim_claimed.
  - now rewrite execute_claim_claimed.
  - rewrite claimInitialGold_run.
    destruct (read_bool ref_hasClaimed t q); [reflexivity | discriminate].
  - rewrite claimInitialGold_run. intros ->. reflexivity.
  - intros t q Hq. rewrite claimInitialGold_run, Hq. eauto.
Qed.

(** C5. Grant effect: for a player who has not claimed yet, in a state the
    contract can be in, claimInitialGold succeeds and leaves the balance
    decrypting to 100 (the confidential sum of the resolved current balance
    and the grant), the stake decrypting to 0, the status decrypting to 0
    and hasClaimed set; it emits GoldClaimed for the player. *)
Theorem claimInitialGold_effect s p :
  reachable s ->
  hasClaimedInitialGold s p = false ->
  let s' := execute p call_claimInitialGold s in
  claimInitialGold p s = Ok tt s' /\
  getGoldBalance s' p = FHE.add (currentBalance s p) (FHE.asEuint32 INITIAL_GRANT) /\
  balanceOf s' p = 100 /\
  stakeOf s' p = 0 /\
  statusOf s' p = 0 /\
  hasClaimedInitialGold s' p = true /\
  events s' = events s ++ [GoldClaimed p].
Proof.
  intros R Hc s'. unfold hasClaimedInitialGold in Hc.
  pose proof (reachable_invariant _ R) as I.
  assert (s' = claimed_state p s) as -> by now apply execute_claim_unclaimed.
  destruct (claimed_state_cleartexts s p I Hc) as (Hb & Hs & Hst & Hc').
  repeat split; try assumption.
  - now rewrite claimInitialGold_run, Hc.
  - unfold getGoldBalance. rewrite read_euint_claimed_state.
    destruct (decide (p = p)); [reflexivity | congruence].
Qed.

(** C6. Absent-account reads: in a state the contract can be in, each of
    getGoldBalance, getStakedBalance and getLastActionStatus returns the zero
    handle exactly when the existence flag of that slot is not set; a handle
    made by the FHE library, a trivial encryption of 0 included, is never the
    zero handle. *)
Theorem absent_reads s p :
  reachable s ->
  (getGoldBalance s p = Uninitialized <-> read_bool ref_hasGoldBalance s p = false) /\
  (getStakedBalance s p = Uninitialized <-> read_bool ref_hasStakedBalance s p = false) /\
  (getLastActionStatus s p = Uninitialized <-> read_bool ref_hasStatusRecord s p = false) /\
  FHE.asEuint32 0 <> Uninitialized /\
  decrypt (FHE.asEuint32 0) = decrypt Uninitialized.
Proof.
  intros R. pose proof (reachable_invariant _ R) as I.
  pose proof (inv_flags s I ref_goldBalances p) as Hg.
  pose proof (inv_flags s I ref_stakedBalances p) as Hs.
  pose proof (inv_flags s I ref_lastActionStatus p) as Hl.
  unfold getGoldBalance, getStakedBalance, getLastActionStatus. simpl in *.
  rewrite Hg, Hs, Hl.
  split; [apply uninitialized_iff|].
  split; [apply uninitialized_iff|].
  split; [apply uninitialized_iff|].
  split; [discriminate | reflexivity].
Qed.

(** C7. Dual-grant bookkeeping: the helper through which every entry point
    writes a confidential slot stores the handle, sets the existence flag and
    records the permission of the contract and of the player; hence, in every
    state the contract can be in, a stored handle has its flag set and both
    permissions, and every handle that a transaction changes is in the
    sender's account and has, after that transaction, its flag set and both
    permissions. *)
Theorem dual_grant_bookkeeping s :
  reachable s ->
  (forall bucket flags q v,
     let s' := stored bucket flags q v s in
     _storeEncryptedValue bucket flags q v s = Ok tt s' /\
     read_euint bucket s' q = v /\
     read_bool flags s' q = true /\
     dual_grant s' v q) /\
  (forall bucket q,
     read_euint bucket s q <> Uninitialized ->
     read_bool (flag_of bucket) s q = true /\
     dual_grant s (read_euint bucket s q) q) /\
  (forall sender c bucket q,
     let s' := execute sender c s in
     read_euint bucket s' q <> read_euint bucket s q ->
     q = sender /\
     read_bool (flag_of bucket) s' q = true /\
     dual_grant s' (read_euint bucket s' q) q).
Proof.
  intros R.
  assert (forall t bucket q, reachable t ->
            read_euint bucket t q <> Uninitialized ->
            read_bool (flag_of bucket) t q = true /\
            dual_grant t (read_euint bucket t q) q) as Hstored.
  { intros t bucket q Rt Hinit. pose proof (reachable_invariant _ Rt) as I. split.
    - rewrite (inv_flags t I).
      destruct (read_euint bucket t q); [exfalso; now apply Hinit | reflexivity ..].
    - now apply (inv_acl t I). }
  split; [|split].
  - intros bucket flags q v s'. unfold s', dual_grant.
    rewrite read_euint_stored, read_bool_stored, acl_stored.
    repeat case_decide; try tauto.
    repeat split; simpl; tauto.
  - intros bucket q. now apply Hstored.
  - intros sender c bucket q s' Hw.
    destruct (written_slot sender c s bucket q Hw) as [-> Hinit].
    split; [reflexivity|]. apply Hstored; [now constructor | exact Hinit].
Qed.

(** C8. Claimed-flag monotonicity: a transaction leaves hasClaimed of a
    player as it was, unless it is a successful claimInitialGold sent by that
    player, which takes it from false to true and emits GoldClaimed; stakeGold
    and withdrawStakedGold never change it; no sequence of transactions takes
    it from true back to false; and it is true exactly when one grant has
    been made to the player.  Conversely, every claimInitialGold that
    succeeds starts with the flag false and ends, in the same transaction,
    with the flag true and the player's first grant logged; a player whose
    flag is false can always claim; and once the flag is true every later
    claimInitialGold of the player reverts, so the transition happens
    once. *)
Theorem hasClaimed_monotone s p sender c calls :
  reachable s ->
  let s' := execute sender c s in
  (hasClaimedInitialGold s' p = hasClaimedInitialGold s p \/
   (sender = p /\ c = call_claimInitialGold /\
    hasClaimedInitialGold s p = false /\ hasClaimedInitialGold s' p = true /\
    claimInitialGold p s = Ok tt s' /\ events s' = events s ++ [GoldClaimed p])) /\
  (is_stake_or_withdraw c = true ->
   hasClaimedInitialGold s' p = hasClaimedInitialGold s p) /\
  Bool.le (hasClaimedInitialGold s p) (hasClaimedInitialGold (execute_all calls s) p) /\
  granted p (events s) = (if hasClaimedInitialGold s p then INITIAL_GRANT else 0) /\
  (forall t,
     claimInitialGold p s = Ok tt t ->
     hasClaimedInitialGold s p = false /\
     hasClaimedInitialGold t p = true /\
     t = execute p call_claimInitialGold s /\
     events t = events s ++ [GoldClaimed p] /\
     granted p (events s) = 0 /\
     granted p (events t) = INITIAL_GRANT) /\
  (hasClaimedInitialGold s p = false ->
   claimInitialGold p s = Ok tt (execute p call_claimInitialGold s) /\
   hasClaimedInitialGold (execute p call_claimInitialGold s) p = true) /\
  (hasClaimedInitialGold s p = true ->
   claimInitialGold p (execute_all calls s) =
     Revert (ErrorString "Gold already claimed") /\
   execute p call_claimInitialGold (execute_all calls s) = execute_all calls s).
Proof.
  intros R s'. unfold hasClaimedInitialGold.
  pose proof (reachable_invariant _ R) as I.
  pose proof (hasClaimed_execute sender c s p) as Hstep. fold s' in Hstep.
  assert (read_bool ref_hasClaimed s p = false ->
          read_bool ref_hasClaimed (claimed_state p s) p = true /\
          events (claimed_state p s) = events s ++ [GoldClaimed p] /\
          granted p (events s) = 0 /\
          granted p (events (claimed_state p s)) = INITIAL_GRANT) as Hgrant.
  { intros Hc.
    destruct (claimed_state_cleartexts s p I Hc) as (_ & _ & _ & Hc').
    destruct (invariant_unclaimed s p I Hc) as (_ & _ & Hg).
    unfold hasClaimedInitialGold in Hc'.
    split; [exact Hc'|]. split; [apply events_claimed_state|]. split; [exact Hg|].
    rewrite events_claimed_state, granted_app, Hg. simpl.
    rewrite Z.eqb_refl. reflexivity. }
  split; [|split; [|split; [|split; [|split; [|split]]]]].
  - destruct Hstep as [Heq | (-> & -> & Hc & E)]; [now left | right].
    destruct (Hgrant Hc) as (Hc' & Hev & _).
    repeat split; try assumption.
    + now rewrite E.
    + now rewrite claimInitialGold_run, Hc, E.
    + now rewrite E.
  - intros Hc. destruct Hstep as [Heq | (_ & -> & _)]; [exact Heq | discriminate].
  - destruct (read_bool ref_hasClaimed s p) eqn:Hc; simpl; [|exact Logic.I].
    now apply hasClaimed_execute_all_mono.
  - apply (inv_claimed s I).
  - intros t Hrun. rewrite claimInitialGold_run in Hrun.
    destruct (read_bool ref_hasClaimed s p) eqn:Hc; [discriminate|].
    injection Hrun as <-. destruct (Hgrant eq_refl) as (Hc' & Hev & Hg & Hg').
    rewrite execute_claim_unclaimed by assumption. auto 10.
  - intros Hc. destruct (Hgrant Hc) as (Hc' & _).
    rewrite execute_claim_unclaimed by assumption.
    split; [now rewrite claimInitialGold_run, Hc | exact Hc'].
  - intros Hc.
    pose proof (hasClaimed_execute_all_mono calls s p Hc) as Hc2.
    split; [now rewrite claimInitialGold_run, Hc2 | now apply execute_claim_claimed].
Qed.


(** C10. Frame: a transaction sent by X leaves the seven entries (balance,
    stake, status, the claim flag and the three existence flags) of every
    other player Y as they were; and claimInitialGold leaves the stake slot
    and the stake existence flag of X itself as they were. *)
Theorem frame_other_accounts s X c Y :
  Y <> X ->
  let s' := execute X c s in
  (forall bucket, read_euint bucket s' Y = read_euint bucket s Y) /\
  (forall flags, read_bool flags s' Y = read_bool flags s Y) /\
  getGoldBalance s' Y = getGoldBalance s Y /\
  getStakedBalance s' Y = getStakedBalance s Y /\
  getLastActionStatus s' Y = getLastActionStatus s Y /\
  hasClaimedInitialGold s' Y = hasClaimedInitialGold s Y /\
  read_euint ref_stakedBalances (execute X call_claimInitialGold s) X =
    read_euint ref_stakedBalances s X /\
  read_bool ref_hasStakedBalance (execute X call_claimInitialGold s) X =
    read_bool ref_hasStakedBalance s X.
Proof.
  intros Hne s'. destruct (frame_execute X c s Y Hne) as [Hb Hf]. fold s' in Hb, Hf.
  unfold getGoldBalance, getStakedBalance, getLastActionStatus, hasClaimedInitialGold.
  rewrite !Hb, !Hf. repeat split; auto.
  - destruct (read_bool ref_hasClaimed s X) eqn:Hc.
    + now rewrite execute_claim_claimed.
    + rewrite execute_claim_unclaimed, read_euint_claimed_state by assumption.
      now case_decide.
  - destruct (read_bool ref_hasClaimed s X) eqn:Hc.
    + now rewrite execute_claim_claimed.
    + rewrite execute_claim_unclaimed, read_bool_claimed_state by assumption.
      now case_decide.
Qed.

(** ** Further properties of the contract *)

Lemma execute_stake_verified s p input proof :
  verifyCiphertext p this input proof = true ->
  execute p (call_stakeGold input proof) s = staked_state p input s.
Proof. intros Hv. unfold execute, dispatch. now rewrite stakeGold_run, Hv. Qed.

Lemma execute_withdraw_verified s p input proof :
  verifyCiphertext p this input proof = true ->
  execute p (call_withdrawStakedGold input proof) s = withdrawn_state p input s.
Proof. intros Hv. unfold execute, dispatch. now rewrite withdrawStakedGold_run, Hv. Qed.

Lemma amountOf_nonneg input : 0 <= amountOf input.
Proof. unfold amountOf. apply decrypt_range. Qed.

(** X1. Staking an amount the balance covers and then withdrawing the same
    amount brings balance and stake back to where they were, with status
    0. *)
Theorem stake_then_withdraw_restores s p in1 pr1 in2 pr2 :
  reachable s ->
  verifyCiphertext p this in1 pr1 = true ->
  verifyCiphertext p this in2 pr2 = true ->
  amountOf in2 = amountOf in1 ->
  amountOf in1 <= balanceOf s p ->
  let s' := execute p (call_withdrawStakedGold in2 pr2)
              (execute p (call_stakeGold in1 pr1) s) in
  balanceOf s' p = balanceOf s p /\
  stakeOf s' p = stakeOf s p /\
  statusOf s' p = 0.
Proof.
  intros R Hv1 Hv2 Ha Hle s'. unfold s'.
  rewrite (execute_stake_verified s p in1 pr1 Hv1), execute_withdraw_verified by assumption.
  pose proof (reachable_invariant _ R) as I.
  pose proof (invariant_staked_state s p in1 I) as I1.
  destruct (invariant_total s p I) as (_ & Hs & _).
  pose proof (amountOf_nonneg in1) as Hpos.
  destruct (staked_state_cleartexts s p in1 I) as [Hok _].
  destruct (Hok Hle) as (Hb1 & Hs1 & _).
  destruct (withdrawn_state_cleartexts (staked_state p in1 s) p in2 I1) as [Hok2 _].
  destruct Hok2 as (Hs2 & Hb2 & Hst2); [lia|].
  rewrite Hs2, Hb2, Hst2, Hb1, Hs1, Ha. unfold STATUS_OK. lia.
Qed.

(** X2. Withdrawing an amount the stake covers and then staking the same
    amount brings stake and balance back to where they were, with status
    0. *)
Theorem withdraw_then_stake_restores s p in1 pr1 in2 pr2 :
  reachable s ->
  verifyCiphertext p this in1 pr1 = true ->
  verifyCiphertext p this in2 pr2 = true ->
  amountOf in2 = amountOf in1 ->
  amountOf in1 <= stakeOf s p ->
  let s' := execute p (call_stakeGold in2 pr2)
              (execute p (call_withdrawStakedGold in1 pr1) s) in
  balanceOf s' p = balanceOf s p /\
  stakeOf s' p = stakeOf s p /\
  statusOf s' p = 0.
Proof.
  intros R Hv1 Hv2 Ha Hle s'. unfold s'.
  rewrite (execute_withdraw_verified s p in1 pr1 Hv1), execute_stake_verified by assumption.
  pose proof (reachable_invariant _ R) as I.
  pose proof (invariant_withdrawn_state s p in1 I) as I1.
  destruct (invariant_total s p I) as (Hb & _ & _).
  pose proof (amountOf_nonneg in1) as Hpos.
  destruct (withdrawn_state_cleartexts s p in1 I) as [Hok _].
  destruct (Hok Hle) as (Hs1 & Hb1 & _).
  destruct (staked_state_cleartexts (withdrawn_state p in1 s) p in2 I1) as [Hok2 _].
  destruct Hok2 as (Hb2 & Hs2 & Hst2); [lia|].
  rewrite Hs2, Hb2, Hst2, Hb1, Hs1, Ha. unfold STATUS_OK. lia.
Qed.

(** X3. When a transaction reverts and what it logs.  claimInitialGold
    reverts exactly when the sender has claimed; stakeGold and
    withdrawStakedGold revert exactly when the input verifier rejects the
    proof, never because of the amount.  A reverted transaction leaves the
    state as it was; every other transaction appends one event to the log,
    of the kind of its entry point and naming its sender. *)
Theorem transaction_outcome s sender c :
  let rejected :=
    match c with
    | call_claimInitialGold => hasClaimedInitialGold s sender
    | _ => negb (proof_accepted sender c)
    end in
  let why :=
    match c with
    | call_claimInitialGold => ErrorString "Gold already claimed"
    | _ => InvalidProof
    end in
  if rejected
  then dispatch sender c s = Revert why /\ execute sender c s = s
  else dispatch sender c s = Ok tt (execute sender c s) /\
       events (execute sender c s) = events s ++ [event_of sender c].
Proof.
  unfold execute, dispatch, hasClaimedInitialGold.
  destruct c as [| input proof | input proof]; simpl.
  - rewrite claimInitialGold_run.
    destruct (read_bool ref_hasClaimed s sender); simpl; split;
      auto using events_claimed_state.
  - rewrite stakeGold_run.
    destruct (verifyCiphertext sender this input proof); simpl; split;
      auto using events_staked_state.
  - rewrite withdrawStakedGold_run.
    destruct (verifyCiphertext sender this input proof); simpl; split;
      auto using events_withdrawn_state.
Qed.

(** X4. A player who has not claimed cannot move Gold: any stakeGold with a
    positive amount is answered with status 1 and any withdrawStakedGold
    with status 2, and balance and stake stay at 0. *)
Theorem unclaimed_moves_rejected s p input proof :
  reachable s ->
  hasClaimedInitialGold s p = false ->
  verifyCiphertext p this input proof = true ->
  0 < amountOf input ->
  let staked := execute p (call_stakeGold input proof) s in
  let withdrawn := execute p (call_withdrawStakedGold input proof) s in
  (balanceOf staked p = 0 /\ stakeOf staked p = 0 /\ statusOf staked p = 1) /\
  (balanceOf withdrawn p = 0 /\ stakeOf withdrawn p = 0 /\ statusOf withdrawn p = 2).
Proof.
  intros R Hc Hv Ha staked withdrawn. unfold staked, withdrawn.
  rewrite execute_stake_verified, execute_withdraw_verified by assumption.
  pose proof (reachable_invariant _ R) as I.
  destruct (invariant_unclaimed s p I Hc) as (Hb & Hs & _).
  destruct (staked_state_cleartexts s p input I) as [_ Hfail].
  destruct (withdrawn_state_cleartexts s p input I) as [_ Hfail'].
  destruct Hfail as (-> & -> & ->); [lia|].
  destruct Hfail' as (-> & -> & ->); [lia|].
  rewrite Hb, Hs. repeat split.
Qed.

(** X5. The amount 0 is always covered: a stakeGold or withdrawStakedGold of
    0 gets status 0 and leaves balance and stake as they were, for players
    with and without Gold. *)
Theorem zero_amount_accepted s p input proof :
  reachable s ->
  verifyCiphertext p this input proof = true ->
  amountOf input = 0 ->
  let staked := execute p (call_stakeGold input proof) s in
  let withdrawn := execute p (call_withdrawStakedGold input proof) s in
  (balanceOf staked p = balanceOf s p /\ stakeOf staked p = stakeOf s p /\
   statusOf staked p = 0) /\
  (balanceOf withdrawn p = balanceOf s p /\ stakeOf withdrawn p = stakeOf s p /\
   statusOf withdrawn p = 0).
Proof.
  intros R Hv Ha staked withdrawn. unfold staked, withdrawn.
  rewrite execute_stake_verified, execute_withdraw_verified by assumption.
  pose proof (reachable_invariant _ R) as I.
  destruct (invariant_total s p I) as (Hb & Hs & _).
  destruct (staked_state_cleartexts s p input I) as [Hok _].
  destruct (withdrawn_state_cleartexts s p input I) as [Hok' _].
  destruct Hok as (-> & -> & ->); [lia|].
  destruct Hok' as (-> & -> & ->); [lia|].
  rewrite Ha. unfold STATUS_OK. repeat split; lia.
Qed.

Lemma execute_rejected s sender c :
  proof_accepted sender c = false -> execute sender c s = s.
Proof.
  unfold execute, dispatch. destruct c as [| input proof | input proof]; simpl; intros Hv.
  - discriminate.
  - now rewrite stakeGold_run, Hv.
  - now rewrite withdrawStakedGold_run, Hv.
Qed.

(** X6. What the log and the flags show does not depend on balances or
    amounts: from two states with the same log and the same flags, two calls
    of the same entry point by the same sender, both accepted or both
    rejected by the input verifier, lead to states with the same log and the
    same flags, whatever the stored handles and the encrypted amounts are. *)
Theorem public_part_independent_of_amounts s1 s2 sender c1 c2 :
  same_public s1 s2 ->
  same_entry_point c1 c2 = true ->
  proof_accepted sender c1 = proof_accepted sender c2 ->
  same_public (execute sender c1 s1) (execute sender c2 s2).
Proof.
  intros [Hev Hfl] Hsame Hacc. unfold same_public.
  destruct c1 as [| i1 p1 | i1 p1], c2 as [| i2 p2 | i2 p2]; try discriminate.
  - pose proof (Hfl ref_hasClaimed sender) as Hc.
    destruct (read_bool ref_hasClaimed s1 sender) eqn:E1.
    + rewrite !execute_claim_claimed by congruence. auto.
    + rewrite !execute_claim_unclaimed by congruence.
      rewrite !events_claimed_state, Hev. split; [reflexivity|].
      intros flags q. rewrite !read_bool_claimed_state, Hfl. reflexivity.
  - simpl in Hacc. destruct (verifyCiphertext sender this i1 p1) eqn:E1.
    + rewrite !execute_stake_verified by congruence.
      rewrite !events_staked_state, Hev. split; [reflexivity|].
      intros flags q. rewrite !read_bool_staked_state, Hfl. reflexivity.
    + rewrite !execute_rejected by (simpl; congruence). auto.
  - simpl in Hacc. destruct (verifyCiphertext sender this i1 p1) eqn:E1.
    + rewrite !execute_withdraw_verified by congruence.
      rewrite !events_withdrawn_state, Hev. split; [reflexivity|].
      intros flags q. rewrite !read_bool_withdrawn_state, Hfl. reflexivity.
    + rewrite !execute_rejected by (simpl; congruence). auto.
Qed.

(** X7. Permissions are only added, and only for the sender and the
    contract: a transaction keeps every permission recorded before it, and a
    permission it adds is held by the sender or by the contract and is for a
    handle that the sender's account holds after the transaction. *)
Theorem permissions_step s sender c v who :
  (In (v, who) (acl s) -> In (v, who) (acl (execute sender c s))) /\
  (In (v, who) (acl (execute sender c s)) ->
   In (v, who) (acl s) \/
   ((who = sender \/ who = this) /\
    exists bucket, read_euint bucket (execute sender c s) sender = v)).
Proof.
  destruct (execute_cases sender c s) as [c | Hc | input proof Hv | input proof Hv].
  - tauto.
  - rewrite acl_claimed_state. cbv zeta. split; [simpl; tauto|].
    simpl. intros [H | [H | [H | [H | H]]]]; try (now left);
      injection H as <- <-; right; (split; [tauto|]);
      [exists ref_lastActionStatus | exists ref_lastActionStatus
       | exists ref_goldBalances | exists ref_goldBalances];
      rewrite read_euint_claimed_state; now case_decide.
  - rewrite acl_staked_state. cbv zeta. split; [simpl; tauto|].
    simpl. intros [H | [H | [H | [H | [H | [H | H]]]]]]; try (now left);
      injection H as <- <-; right; (split; [tauto|]);
      [exists ref_lastActionStatus | exists ref_lastActionStatus
       | exists ref_stakedBalances | exists ref_stakedBalances
       | exists ref_goldBalances | exists ref_goldBalances];
      rewrite read_euint_staked_state; now case_decide.
  - rewrite acl_withdrawn_state. cbv zeta. split; [simpl; tauto|].
    simpl. intros [H | [H | [H | [H | [H | [H | H]]]]]]; try (now left);
      injection H as <- <-; right; (split; [tauto|]);
      [exists ref_lastActionStatus | exists ref_lastActionStatus
       | exists ref_goldBalances | exists ref_goldBalances
       | exists ref_stakedBalances | exists ref_stakedBalances];
      rewrite read_euint_withdrawn_state; now case_decide.
Qed.

Lemma permissions_execute s sender c v who :
  In (v, who) (acl (execute sender c s)) ->
  In (v, who) (acl s) \/
  ((who = sender \/ who = this) /\ v <> Uninitialized /\
   In (v, this) (acl (execute sender c s)) /\
   In (event_of sender c) (events (execute sender c s))).
Proof.
  destruct (execute_cases sender c s) as [c | Hc | input proof Hv | input proof Hv].
  - tauto.
  - rewrite acl_claimed_state, events_claimed_state. cbv zeta. simpl.
    intros [H | [H | [H | [H | H]]]]; try (now left);
      injection H as <- <-; right;
      (repeat split; [tauto | discriminate | tauto | apply in_app_iff; simpl; tauto]).
  - rewrite acl_staked_state, events_staked_state. cbv zeta. simpl.
    intros [H | [H | [H | [H | [H | [H | H]]]]]]; try (now left);
      injection H as <- <-; right;
      (repeat split; [tauto | discriminate | tauto | apply in_app_iff; simpl; tauto]).
  - rewrite acl_withdrawn_state, events_withdrawn_state. cbv zeta. simpl.
    intros [H | [H | [H | [H | [H | [H | H]]]]]]; try (now left);
      injection H as <- <-; right;
      (repeat split; [tauto | discriminate | tauto | apply in_app_iff; simpl; tauto]).
Qed.

Lemma events_execute_incl s sender c e :
  In e (events s) -> In e (events (execute sender c s)).
Proof.
  intros H. destruct (execute_cases sender c s); auto;
    rewrite ?events_claimed_state, ?events_staked_state, ?events_withdrawn_state;
    apply in_app_iff; now left.
Qed.

Lemma acl_execute_incl s sender c v who :
  In (v, who) (acl s) -> In (v, who) (acl (execute sender c s)).
Proof.
  intros H. destruct (execute_cases sender c s); auto;
    rewrite ?acl_claimed_state, ?acl_staked_state, ?acl_withdrawn_state;
    cbv zeta; simpl; tauto.
Qed.

(** X8. Who holds permissions: in every state the contract can be in, a
    recorded permission is never for the zero handle, the contract itself
    holds a permission for the same handle, and the holder is the contract
    or a player named by an event of the log, that is, a player with a
    transaction that went through. *)
Theorem permissions_reachable s v who :
  reachable s ->
  In (v, who) (acl s) ->
  v <> Uninitialized /\
  In (v, this) (acl s) /\
  (who = this \/ exists e, In e (events s) /\ event_player e = who).
Proof.
  intros R. revert v who.
  induction R as [| s sender c R IH]; intros v who Hin.
  - destruct Hin.
  - destruct (permissions_execute s sender c v who Hin)
      as [Hold | (Hwho & Hv & Hthis & Hev)].
    + destruct (IH v who Hold) as (Hv & Hthis & Hwho).
      split; [exact Hv|]. split; [now apply acl_execute_incl|].
      destruct Hwho as [-> | (e & He & Hp)]; [now left | right].
      exists e. split; [now apply events_execute_incl | exact Hp].
    + split; [exact Hv|]. split; [exact Hthis|].
      destruct Hwho as [-> | ->]; [right | now left].
      exists (event_of sender c). split; [exact Hev|]. now destruct c.
Qed.

Lemma status_range s p :
  reachable s -> statusOf s p = 0 \/ statusOf s p = 1 \/ statusOf s p = 2.
Proof.
  intros R. revert p. induction R as [| s sender c R IH]; intros p.
  - now left.
  - unfold statusOf, getLastActionStatus in *.
    destruct (execute_cases sender c s) as [c | Hc | input proof Hv | input proof Hv].
    + apply IH.
    + rewrite read_euint_claimed_state. case_decide; [now left | apply IH].
    + rewrite read_euint_staked_state. cbv zeta. case_decide; [|apply IH].
      rewrite decrypt_stake_status.
      destruct (_ <=? _); unfold STATUS_OK, STATUS_INSUFFICIENT_BALANCE; tauto.
    + rewrite read_euint_withdrawn_state. cbv zeta. case_decide; [|apply IH].
      rewrite decrypt_withdraw_status.
      destruct (_ <=? _); unfold STATUS_OK, STATUS_INSUFFICIENT_STAKE; tauto.
Qed.

(** X9. Ranges: in every state the contract can be in, the balance and the
    stake of a player each decrypt to a value between 0 and 100, and the
    status decrypts to 0, 1 or 2. *)
Theorem cleartext_ranges s p :
  reachable s ->
  0 <= balanceOf s p <= INITIAL_GRANT /\
  0 <= stakeOf s p <= INITIAL_GRANT /\
  (statusOf s p = STATUS_OK \/
   statusOf s p = STATUS_INSUFFICIENT_BALANCE \/
   statusOf s p = STATUS_INSUFFICIENT_STAKE).
Proof.
  intros R. pose proof (reachable_invariant _ R) as I.
  destruct (invariant_total s p I) as (Hb & Hs & Hsum).
  split; [lia|]. split; [lia|]. now apply status_range.
Qed.

Lemma flags_reachable s p :
  reachable s ->
  read_bool ref_hasStatusRecord s p = read_bool ref_hasGoldBalance s p /\
  (read_bool ref_hasStakedBalance s p = true -> read_bool ref_hasGoldBalance s p = true) /\
  (read_bool ref_hasClaimed s p = true -> read_bool ref_hasGoldBalance s p = true).
Proof.
  intros R. revert p. induction R as [| s sender c R IH]; intros p.
  - repeat split; discriminate.
  - destruct (IH p) as (H1 & H2 & H3).
    destruct (execute_cases sender c s) as [c | Hc | input proof Hv | input proof Hv].
    + auto.
    + rewrite !read_bool_claimed_state. case_decide; auto.
    + rewrite !read_bool_staked_state. case_decide; auto.
    + rewrite !read_bool_withdrawn_state. case_decide; auto.
Qed.

(** X10. Which slots exist together: in every state the contract can be in,
    a player has a status record exactly when the player has a balance
    record; a player with a stake record, or who has claimed, has both; and
    the getters return handles of the FHE library for the slots that
    exist. *)
Theorem slots_exist_together s p :
  reachable s ->
  read_bool ref_hasStatusRecord s p = read_bool ref_hasGoldBalance s p /\
  (read_bool ref_hasStakedBalance s p = true \/ hasClaimedInitialGold s p = true ->
   read_bool ref_hasGoldBalance s p = true /\
   getGoldBalance s p <> Uninitialized /\
   getLastActionStatus s p <> Uninitialized).
Proof.
  intros R. pose proof (reachable_invariant _ R) as I.
  destruct (flags_reachable s p R) as (H1 & H2 & H3).
  split; [exact H1|]. intros Hany.
  assert (read_bool ref_hasGoldBalance s p = true) as Hg by (destruct Hany; auto).
  split; [exact Hg|].
  pose proof (inv_flags s I ref_goldBalances p) as Fg.
  pose proof (inv_flags s I ref_lastActionStatus p) as Fs.
  simpl in Fg, Fs. rewrite H1 in Fs. rewrite Hg in Fg, Fs.
  unfold getGoldBalance, getLastActionStatus.
  split; intros E; rewrite E in *; discriminate.
Qed.

Lemma slots_kept_execute s sender c bucket flags q :
  Bool.le (FHE.isInitialized (read_euint bucket s q))
    (FHE.isInitialized (read_euint bucket (execute sender c s) q)) /\
  Bool.le (read_bool flags s q) (read_bool flags (execute sender c s) q).
Proof.
  assert (forall b : bool, Bool.le b b) as Hrefl by (intros []; simpl; auto).
  assert (forall b : bool, Bool.le b true) as Htop by (intros []; simpl; auto).
  destruct (execute_cases sender c s) as [c | Hc | input proof Hv | input proof Hv].
  - auto.
  - rewrite read_euint_claimed_state, read_bool_claimed_state.
    case_decide; [|auto]. destruct bucket, flags; auto.
  - rewrite read_euint_staked_state, read_bool_staked_state. cbv zeta.
    case_decide; [|auto]. destruct bucket, flags; auto.
  - rewrite read_euint_withdrawn_state, read_bool_withdrawn_state. cbv zeta.
    case_decide; [|auto]. destruct bucket, flags; auto.
Qed.

Lemma bool_le_trans (a b c : bool) : Bool.le a b -> Bool.le b c -> Bool.le a c.
Proof. destruct a, b, c; simpl; auto. Qed.

(** X11. Nothing is ever deleted: whatever transactions follow, a slot that
    holds a handle of the FHE library keeps holding one (it never goes back
    to the zero handle), and a flag that is set (an existence flag or the
    claim flag) stays set. *)
Theorem slots_never_deleted s calls bucket flags q :
  Bool.le (FHE.isInitialized (read_euint bucket s q))
    (FHE.isInitialized (read_euint bucket (execute_all calls s) q)) /\
  Bool.le (read_bool flags s q) (read_bool flags (execute_all calls s) q).
Proof.
  revert s. induction calls as [| [sender c] calls IH]; intros s; simpl.
  - split; [destruct (FHE.isInitialized _) | destruct (read_bool _ _ _)]; simpl; auto.
  - destruct (slots_kept_execute s sender c bucket flags q) as [H1 H2].
    destruct (IH (execute sender c s)) as [H3 H4].
    split; eapply bool_le_trans; eassumption.
Qed.

(** A transaction reads and writes, of the contract storage, only the
    entries of its sender. *)
Lemma execute_local sender c s t :
  (forall bucket, read_euint bucket s sender = read_euint bucket t sender) ->
  (forall flags, read_bool flags s sender = read_bool flags t sender) ->
  (forall bucket,
     read_euint bucket (execute sender c s) sender =
     read_euint bucket (execute sender c t) sender) /\
  (forall flags,
     read_bool flags (execute sender c s) sender =
     read_bool flags (execute sender c t) sender).
Proof.
  intros Hb Hf.
  assert (currentBalance s sender = currentBalance t sender) as Ecb
    by (unfold currentBalance, resolve; now rewrite Hb, Hf).
  assert (currentStake s sender = currentStake t sender) as Ecs
    by (unfold currentStake, resolve; now rewrite Hb, Hf).
  destruct c as [| input proof | input proof].
  - pose proof (Hf ref_hasClaimed) as Hc.
    destruct (read_bool ref_hasClaimed s sender) eqn:E.
    + rewrite !execute_claim_claimed by congruence. auto.
    + rewrite !execute_claim_unclaimed by congruence.
      split; intros r;
        [rewrite !read_euint_claimed_state | rewrite !read_bool_claimed_state];
        now rewrite ?Ecb, ?Hb, ?Hf.
  - destruct (verifyCiphertext sender this input proof) eqn:E.
    + rewrite !execute_stake_verified by assumption.
      split; intros r;
        [rewrite !read_euint_staked_state | rewrite !read_bool_staked_state];
        now rewrite ?Ecb, ?Ecs, ?Hb, ?Hf.
    + rewrite !execute_rejected by exact E. auto.
  - destruct (verifyCiphertext sender this input proof) eqn:E.
    + rewrite !execute_withdraw_verified by assumption.
      split; intros r;
        [rewrite !read_euint_withdrawn_state | rewrite !read_bool_withdrawn_state];
        now rewrite ?Ecb, ?Ecs, ?Hb, ?Hf.
    + rewrite !execute_rejected by exact E. auto.
Qed.

(** X12. Transactions of different players commute on the contract storage:
    executed in either order, they leave the same handle in every slot and
    the same value in every flag of every player. *)
Theorem different_senders_commute s X c1 Y c2 :
  X <> Y ->
  same_storage (execute Y c2 (execute X c1 s)) (execute X c1 (execute Y c2 s)).
Proof.
  intros Hne.
  assert (Y <> X) as Hne' by congruence.
  destruct (frame_execute X c1 s Y Hne') as [FbY FfY].
  destruct (frame_execute Y c2 s X Hne) as [FbX FfX].
  destruct (execute_local X c1 s (execute Y c2 s)) as [LbX LfX]; [auto | auto |].
  destruct (execute_local Y c2 s (execute X c1 s)) as [LbY LfY]; [auto | auto |].
  split; intros r q.
  - destruct (decide (q = X)) as [->|HqX]; [|destruct (decide (q = Y)) as [->|HqY]].
    + destruct (frame_execute Y c2 (execute X c1 s) X Hne) as [-> _]. apply LbX.
    + destruct (frame_execute X c1 (execute Y c2 s) Y Hne') as [-> _].
      symmetry. apply LbY.
    + destruct (frame_execute Y c2 (execute X c1 s) q HqY) as [-> _].
      destruct (frame_execute X c1 (execute Y c2 s) q HqX) as [-> _].
      destruct (frame_execute X c1 s q HqX) as [-> _].
      destruct (frame_execute Y c2 s q HqY) as [-> _]. reflexivity.
  - destruct (decide (q = X)) as [->|HqX]; [|destruct (decide (q = Y)) as [->|HqY]].
    + destruct (frame_execute Y c2 (execute X c1 s) X Hne) as [_ ->]. apply LfX.
    + destruct (frame_execute X c1 (execute Y c2 s) Y Hne') as [_ ->].
      symmetry. apply LfY.
    + destruct (frame_execute Y c2 (execute X c1 s) q HqY) as [_ ->].
      destruct (frame_execute X c1 (execute Y c2 s) q HqX) as [_ ->].
      destruct (frame_execute X c1 s q HqX) as [_ ->].
      destruct (frame_execute Y c2 s q HqY) as [_ ->]. reflexivity.
Qed.

(** ** The clients against the contract *)

Lemma zero_hash_iff h : StakeApp.is_ZERO_HASH h = true <-> h = Uninitialized.
Proof. destruct h; simpl; split; congruence. Qed.

Lemma in_handles_of g st u h :
  In h (StakeApp.handles_of (Some g) (Some st) (Some u)) <->
  h <> Uninitialized /\ (h = g \/ h = st \/ h = u).
Proof.
  unfold StakeApp.handles_of, StakeApp.to_decrypt. rewrite !in_app_iff.
  destruct g, st, u; simpl; split; intros H;
    repeat match goal with
           | H : _ \/ _ |- _ => destruct H
           | H : _ /\ _ |- _ => destruct H
           | H : False |- _ => destruct H
           end; subst; try congruence; try (split; [discriminate | tauto]); tauto.
Qed.

Lemma stored_handle_granted s p bucket :
  reachable s ->
  read_euint bucket s p <> Uninitialized ->
  dual_grant s (read_euint bucket s p) p.
Proof. intros R. apply inv_acl. now apply reachable_invariant. Qed.

Lemma getter_handles_granted s p h :
  reachable s ->
  In h (StakeApp.handles_of (Some (getGoldBalance s p))
          (Some (getStakedBalance s p)) (Some (getLastActionStatus s p))) ->
  dual_grant s h p.
Proof.
  intros R Hin. apply in_handles_of in Hin as [Hz [-> | [-> | ->]]];
    now apply stored_handle_granted.
Qed.

Lemma parsed_value_decrypt result g st u h :
  (forall x, In x (StakeApp.handles_of (Some g) (Some st) (Some u)) ->
             result x = Some (decrypt x)) ->
  h = g \/ h = st \/ h = u ->
  StakeApp.parsed_value result (Some h) = decrypt h.
Proof.
  intros Hres Hh. unfold StakeApp.parsed_value.
  destruct (StakeApp.is_ZERO_HASH h) eqn:E.
  - apply zero_hash_iff in E. now subst.
  - rewrite Hres; [reflexivity|]. apply in_handles_of. split; [|exact Hh].
    intros ->. discriminate.
Qed.

Lemma decrypt_request_answered inst account g st u sg signature result :
  StakeApp.handles_of g st u <> [] ->
  StakeApp.signTypedData sg = inr signature ->
  StakeApp.userDecrypt inst (StakeApp.handles_of g st u) account = inr result ->
  StakeApp.decrypt_request inst account g st u (Some sg) =
  inr (StakeApp.mkDecryptedBalances
         (StakeApp.parsed_value result g)
         (StakeApp.parsed_value result st)
         (StakeApp.parsed_value result u),
       StakeApp.mkFeedback StakeApp.success "Decrypted balances available below").
Proof.
  intros Hne Hsign Hreq. unfold StakeApp.decrypt_request.
  rewrite Hreq. unfold StakeApp.ensureSigner. rewrite Hsign.
  destruct (StakeApp.handles_of g st u); [contradiction | reflexivity].
Qed.

(** X13. The status the contract can hold is always one the web client
    describes: for the status of a player in a state the contract can be in,
    statusDescription gives the message of that code and never
    'Unknown status'. *)
Theorem statusDescription_of_contract_status s p g st :
  reachable s ->
  let d := StakeApp.mkDecryptedBalances g st (statusOf s p) in
  StakeApp.statusDescription (Some d) =
    (if statusOf s p =? STATUS_OK then "Ready for the next move"%string
     else if statusOf s p =? STATUS_INSUFFICIENT_BALANCE
          then "Insufficient Gold balance"%string
          else "Insufficient staked balance"%string) /\
  StakeApp.statusDescription (Some d) <> "Unknown status"%string.
Proof.
  intros R d. unfold d, StakeApp.statusDescription. simpl.
  destruct (status_range s p R) as [-> | [-> | ->]]; split; try reflexivity;
    vm_compute; discriminate.
Qed.

(** X14. The web client shows what the contract holds.  With the three
    handles read from the getters for the connected player, a signer that
    signs, and a relayer that answers requests for handles the player is
    permitted to decrypt, decryptBalances ends with the cleartexts of
    balance, stake and status, and is no longer decrypting; it reports
    'Balances are zero' exactly for a player without a balance record. *)
Theorem decryptBalances_shows_cleartexts s p inst sg signature st :
  reachable s ->
  StakeApp.signTypedData sg = inr signature ->
  let handles :=
    StakeApp.handles_of (Some (getGoldBalance s p))
      (Some (getStakedBalance s p)) (Some (getLastActionStatus s p)) in
  (Forall (fun h => dual_grant s h p) handles ->
   exists result,
     StakeApp.userDecrypt inst handles p = inr result /\
     forall h, In h handles -> result h = Some (decrypt h)) ->
  let st' :=
    StakeApp.decryptBalances (Some inst) (Some p) (Some (getGoldBalance s p))
      (Some (getStakedBalance s p)) (Some (getLastActionStatus s p)) (Some sg) st in
  StakeApp.decrypted st' =
    Some (StakeApp.mkDecryptedBalances (balanceOf s p) (stakeOf s p) (statusOf s p)) /\
  StakeApp.isDecrypting st' = false /\
  StakeApp.feedback st' =
    Some (if read_bool ref_hasGoldBalance s p
          then StakeApp.mkFeedback StakeApp.success "Decrypted balances available below"
          else StakeApp.mkFeedback StakeApp.info "Balances are zero").
Proof.
  intros R Hsign handles Hrelayer st'.
  pose proof (reachable_invariant _ R) as I.
  destruct (flags_reachable s p R) as (Hstatus & Hstake & _).
  pose proof (inv_flags s I ref_goldBalances p) as Fg.
  pose proof (inv_flags s I ref_stakedBalances p) as Fs.
  pose proof (inv_flags s I ref_lastActionStatus p) as Fu.
  simpl in Fg, Fs, Fu. rewrite Hstatus in Fu.
  destruct Hrelayer as (result & Hreq & Hres).
  { apply Forall_forall. intros h Hin. apply list_elem_of_In in Hin.
    now apply getter_handles_granted. }
  unfold st', StakeApp.decryptBalances.
  destruct (read_bool ref_hasGoldBalance s p) eqn:Eg.
  - assert (handles <> []) as Hne.
    { unfold handles, StakeApp.handles_of, StakeApp.to_decrypt, getGoldBalance.
      destruct (read_euint ref_goldBalances s p); try discriminate; simpl; discriminate. }
    rewrite (decrypt_request_answered inst p _ _ _ sg signature result Hne Hsign Hreq).
    rewrite !(parsed_value_decrypt result (getGoldBalance s p)
                (getStakedBalance s p) (getLastActionStatus s p)) by (auto; tauto).
    auto.
  - assert (getGoldBalance s p = Uninitialized) as Zg
      by (unfold getGoldBalance; now apply uninitialized_iff).
    assert (getLastActionStatus s p = Uninitialized) as Zu
      by (unfold getLastActionStatus; now apply uninitialized_iff).
    assert (getStakedBalance s p = Uninitialized) as Zs.
    { unfold getStakedBalance. apply uninitialized_iff. rewrite <- Fs.
      destruct (read_bool ref_hasStakedBalance s p); [|reflexivity].
      now specialize (Hstake eq_refl). }
    unfold balanceOf, stakeOf, statusOf. rewrite Zg, Zs, Zu. simpl. auto.
Qed.

(** X15. A player without records sees zeros without signing anything: when
    the player has no balance record, decryptBalances ends with 0, 0, 0 and
    'Balances are zero' whatever the relayer and the signer do, also when
    there is no signer at all. *)
Theorem decryptBalances_without_records s p inst signer st :
  reachable s ->
  read_bool ref_hasGoldBalance s p = false ->
  StakeApp.decryptBalances (Some inst) (Some p) (Some (getGoldBalance s p))
    (Some (getStakedBalance s p)) (Some (getLastActionStatus s p)) signer st =
  StakeApp.mkDecryptState
    (Some (StakeApp.mkFeedback StakeApp.info "Balances are zero")) false
    (Some (StakeApp.mkDecryptedBalances 0 0 0)).
Proof.
  intros R Eg.
  pose proof (reachable_invariant _ R) as I.
  destruct (flags_reachable s p R) as (Hstatus & Hstake & _).
  pose proof (inv_flags s I ref_goldBalances p) as Fg.
  pose proof (inv_flags s I ref_stakedBalances p) as Fs.
  pose proof (inv_flags s I ref_lastActionStatus p) as Fu.
  simpl in Fg, Fs, Fu. rewrite Hstatus in Fu. rewrite Eg in Fg, Fu.
  assert (read_bool ref_hasStakedBalance s p = false) as Es.
  { destruct (read_bool ref_hasStakedBalance s p); [|reflexivity].
    now rewrite Hstake in Eg. }
  rewrite Es in Fs.
  unfold getGoldBalance, getStakedBalance, getLastActionStatus.
  rewrite (proj2 (uninitialized_iff _) (eq_sym Fg)),
    (proj2 (uninitialized_iff _) (eq_sym Fs)),
    (proj2 (uninitialized_iff _) (eq_sym Fu)).
  reflexivity.
Qed.

(** X16. The claim button agrees with the contract.  With the claim flag of
    the connected player loaded from the contract: when the button is
    enabled, it is labelled 'Claim 100 Gold' and a claimInitialGold sent
    then succeeds and leaves a balance of 100; when the player has claimed,
    the button is disabled and labelled 'Gold already claimed'. *)
Theorem claim_button_agrees_with_contract s p isProcessing zamaLoading isLoadingBalances :
  reachable s ->
  let hasClaimed := Some (hasClaimedInitialGold s p) in
  let disabled :=
    StakeApp.claimDisabled isProcessing zamaLoading (Some p) isLoadingBalances hasClaimed in
  let label := StakeApp.claimLabel (Some p) hasClaimed isProcessing in
  (disabled = false ->
   label = "Claim 100 Gold"%string /\
   claimInitialGold p s = Ok tt (execute p call_claimInitialGold s) /\
   balanceOf (execute p call_claimInitialGold s) p = 100) /\
  (hasClaimedInitialGold s p = true ->
   disabled = true /\ label = "Gold already claimed"%string).
Proof.
  intros R hasClaimed disabled label.
  unfold disabled, label, hasClaimed, StakeApp.claimDisabled, StakeApp.claimLabel,
    hasClaimedInitialGold.
  destruct (read_bool ref_hasClaimed s p) eqn:Hc.
  - rewrite !orb_true_r. split; [discriminate | auto].
  - split; [|discriminate].
    destruct isProcessing, zamaLoading, isLoadingBalances; simpl; try discriminate.
    intros _.
    pose proof (reachable_invariant _ R) as I.
    destruct (claimed_state_cleartexts s p I Hc) as (Hb & _).
    rewrite execute_claim_unclaimed by assumption.
    split; [reflexivity|]. split; [|exact Hb].
    now rewrite claimInitialGold_run, Hc.
Qed.

(** X17. The command line task never asks for a decryption the player is
    not permitted: with a user decryption that answers for every handle on
    which the ACL records a permission of the contract and of the player,
    task:decrypt-balances prints, in every state the contract can be in, the
    cleartexts of the player's balance, stake and status. *)
Theorem task_decrypt_balances_prints_cleartexts s p userDecryptEuint :
  reachable s ->
  (forall h, h <> Uninitialized -> dual_grant s h p ->
             userDecryptEuint h p = Some (decrypt h)) ->
  task_decrypt_balances userDecryptEuint s p =
    Some (balanceOf s p, stakeOf s p, statusOf s p).
Proof.
  intros R Hdec.
  assert (forall bucket,
            (if StakeApp.is_ZERO_HASH (read_euint bucket s p) then Some 0
             else userDecryptEuint (read_euint bucket s p) p) =
            Some (decrypt (read_euint bucket s p))) as Hslot.
  { intros bucket. destruct (StakeApp.is_ZERO_HASH (read_euint bucket s p)) eqn:E.
    - apply zero_hash_iff in E. now rewrite E.
    - assert (read_euint bucket s p <> Uninitialized) as Hz
        by (intros E'; rewrite E' in E; discriminate).
      apply Hdec; [exact Hz | now apply stored_handle_granted]. }
  unfold task_decrypt_balances, balanceOf, stakeOf, statusOf,
    getGoldBalance, getStakedBalance, getLastActionStatus. cbv zeta.
  now rewrite !Hslot.
Qed.

End GhostStake.

(** ** The properties at the sample environment

    Each lemma below runs one of the theorems on the sample environment:
    Alice (and Bob) against a verifier that accepts non-empty proofs. *)

Local Abbreviation run := (execute_all sample_verifier sample_contract) (only parsing).
Local Abbreviation exec := (execute sample_verifier sample_contract) (only parsing).
Local Abbreviation reach := (reachable sample_verifier sample_contract) (only parsing).

(** The decrypted view of an account. *)
Local Abbreviation view s p :=
  (balanceOf s p, stakeOf s p, statusOf s p, hasClaimedInitialGold s p) (only parsing).

(** Fresh player, claim: 100 in the wallet, nothing staked, status 0. *)
Example scenario_claim :
  view (run history_claim initial_state) alice = (100, 0, 0, true).
Proof. vm_compute. reflexivity. Qed.

(** Then stake 40. *)
Example scenario_stake_40 :
  view (run history_stake initial_state) alice = (60, 40, 0, true).
Proof. vm_compute. reflexivity. Qed.

(** Stake 150 after the claim: nothing moves, status 1. *)
Example scenario_stake_150 :
  view (exec alice (call_stakeGold input_150 sample_proof)
          (run history_claim initial_state)) alice = (100, 0, 1, true).
Proof. vm_compute. reflexivity. Qed.

(** Withdraw 20 of the 40 staked. *)
Example scenario_withdraw_20 :
  view (exec alice (call_withdrawStakedGold input_20 sample_proof)
          (run history_stake initial_state)) alice = (80, 20, 0, true).
Proof. vm_compute. reflexivity. Qed.

(** Withdraw 150 of the 40 staked: nothing moves, status 2. *)
Example scenario_withdraw_150 :
  view (exec alice (call_withdrawStakedGold input_150 sample_proof)
          (run history_stake initial_state)) alice = (60, 40, 2, true).
Proof. vm_compute. reflexivity. Qed.

(** A second claim reverts and changes nothing. *)
Example scenario_claim_twice :
  claimInitialGold sample_contract alice (run history_claim initial_state) =
    Revert (ErrorString "Gold already claimed") /\
  exec alice call_claimInitialGold (run history_claim initial_state) =
    run history_claim initial_state.
Proof. split; vm_compute; reflexivity. Qed.

(** An empty proof is refused and the transaction changes nothing. *)
Example scenario_invalid_proof :
  stakeGold sample_verifier sample_contract alice input_40 []
    (run history_claim initial_state) = Revert InvalidProof /\
  exec alice (call_stakeGold input_40 []) (run history_claim initial_state) =
    run history_claim initial_state.
Proof. split; vm_compute; reflexivity. Qed.

(** The handle stored for Alice's balance by her claim, and the permissions
    recorded for it. *)
Example scenario_claim_handle :
  getGoldBalance (run history_claim initial_state) alice =
    FheAdd (TrivialEncrypt 0) (TrivialEncrypt 100) /\
  getStakedBalance (run history_claim initial_state) alice = Uninitialized /\
  acl (run history_claim initial_state) =
    [(TrivialEncrypt 0, alice); (TrivialEncrypt 0, sample_contract);
     (FheAdd (TrivialEncrypt 0) (TrivialEncrypt 100), alice);
     (FheAdd (TrivialEncrypt 0) (TrivialEncrypt 100), sample_contract)].
Proof. repeat split; vm_compute; reflexivity. Qed.

(** Reachability is what keeps the uint32 arithmetic from wrapping: in a
    storage that no run of the contract produces, with 1 in the wallet and
    2^32 - 1 staked, staking 1 wraps the stake to 0. *)
Example wrap_outside_reachable :
  let s := mkState {[alice := TrivialEncrypt 1]}
             {[alice := TrivialEncrypt (2 ^ 32 - 1)]} ∅ ∅
             {[alice := true]} {[alice := true]} ∅ [] [] in
  let s' := exec alice (call_stakeGold (mkExternal 1004 1) sample_proof) s in
  view s alice = (1, 4294967295, 0, false) /\
  view s' alice = (0, 0, 0, false).
Proof. split; vm_compute; reflexivity. Qed.

Lemma conservation_witness :
  reach (run history_claim initial_state) /\
  forallb (is_move_of alice) sample_moves = true /\
  (balanceOf (run sample_moves (run history_claim initial_state)) alice +
   stakeOf (run sample_moves (run history_claim initial_state)) alice =
   balanceOf (run history_claim initial_state) alice +
   stakeOf (run history_claim initial_state) alice /\
   balanceOf (run sample_moves (run history_claim initial_state)) alice +
   stakeOf (run sample_moves (run history_claim initial_state)) alice =
   granted alice (events (run sample_moves (run history_claim initial_state)))).
Proof.
  split; [apply reachable_run|]. split; [reflexivity|].
  apply (conservation sample_verifier sample_contract
           (run history_claim initial_state) alice sample_moves).
  - apply reachable_run.
  - reflexivity.
Defined.

Lemma stakeGold_semantics_witness :
  reach (run history_claim initial_state) /\
  sample_verifier alice sample_contract input_40 sample_proof = true /\
  balanceOf (exec alice (call_stakeGold input_40 sample_proof)
               (run history_claim initial_state)) alice =
    balanceOf (run history_claim initial_state) alice - amountOf input_40 /\
  stakeOf (exec alice (call_stakeGold input_40 sample_proof)
             (run history_claim initial_state)) alice =
    stakeOf (run history_claim initial_state) alice + amountOf input_40 /\
  statusOf (exec alice (call_stakeGold input_40 sample_proof)
              (run history_claim initial_state)) alice = 0.
Proof.
  split; [apply reachable_run|]. split; [reflexivity|].
  exact (proj2 (proj2 (proj2 (proj2 (proj2 (proj2
    (stakeGold_semantics sample_verifier sample_contract
       (run history_claim initial_state) alice input_40 sample_proof
       (reachable_run _ _ history_claim) eq_refl))))))).
Defined.

Lemma withdrawStakedGold_semantics_witness :
  reach (run history_stake initial_state) /\
  sample_verifier alice sample_contract input_150 sample_proof = true /\
  stakeOf (exec alice (call_withdrawStakedGold input_150 sample_proof)
             (run history_stake initial_state)) alice =
    stakeOf (run history_stake initial_state) alice /\
  balanceOf (exec alice (call_withdrawStakedGold input_150 sample_proof)
               (run history_stake initial_state)) alice =
    balanceOf (run history_stake initial_state) alice /\
  statusOf (exec alice (call_withdrawStakedGold input_150 sample_proof)
              (run history_stake initial_state)) alice = 2.
Proof.
  split; [apply reachable_run|]. split; [reflexivity|].
  exact (proj2 (proj2 (proj2 (proj2 (proj2
    (withdrawStakedGold_semantics sample_verifier sample_contract
       (run history_stake initial_state) alice input_150 sample_proof
       (reachable_run _ _ history_stake) eq_refl)))))).
Defined.

Lemma second_claim_aborts_witness :
  reach initial_state /\
  hasClaimedInitialGold initial_state alice = false /\
  claimInitialGold sample_contract alice
    (run sample_interleaving (exec alice call_claimInitialGold initial_state)) =
    Revert (ErrorString "Gold already claimed") /\
  exec alice call_claimInitialGold
    (run sample_interleaving (exec alice call_claimInitialGold initial_state)) =
    run sample_interleaving (exec alice call_claimInitialGold initial_state) /\
  balanceOf (exec alice call_claimInitialGold
               (exec alice call_claimInitialGold initial_state)) alice = INITIAL_GRANT.
Proof.
  split; [constructor|]. split; [reflexivity|].
  destruct (second_claim_aborts sample_verifier sample_contract
              initial_state alice sample_interleaving
              (reachable_init _ _) eq_refl) as (_ & Habort & Hsame & Hbalance & _).
  exact (conj Habort (conj Hsame Hbalance)).
Defined.

Lemma claimInitialGold_effect_witness :
  reach initial_state /\
  hasClaimedInitialGold initial_state alice = false /\
  balanceOf (exec alice call_claimInitialGold initial_state) alice = 100 /\
  stakeOf (exec alice call_claimInitialGold initial_state) alice = 0 /\
  statusOf (exec alice call_claimInitialGold initial_state) alice = 0 /\
  hasClaimedInitialGold (exec alice call_claimInitialGold initial_state) alice = true.
Proof.
  split; [constructor|]. split; [reflexivity|].
  destruct (claimInitialGold_effect sample_verifier sample_contract
              initial_state alice (reachable_init _ _) eq_refl)
    as (_ & _ & Hb & Hs & Hst & Hc & _).
  exact (conj Hb (conj Hs (conj Hst Hc))).
Defined.

Lemma absent_reads_witness :
  reach (run history_claim initial_state) /\
  (getStakedBalance (run history_claim initial_state) alice = Uninitialized <->
   read_bool ref_hasStakedBalance (run history_claim initial_state) alice = false) /\
  (getGoldBalance (run history_claim initial_state) alice = Uninitialized <->
   read_bool ref_hasGoldBalance (run history_claim initial_state) alice = false).
Proof.
  split; [apply reachable_run|].
  destruct (absent_reads sample_verifier sample_contract
              (run history_claim initial_state) alice (reachable_run _ _ history_claim))
    as (Hgold & Hstake & _).
  exact (conj Hstake Hgold).
Defined.

Lemma dual_grant_bookkeeping_witness :
  reach (run history_stake initial_state) /\
  (forall bucket q,
     read_euint bucket (run history_stake initial_state) q <> Uninitialized ->
     read_bool (flag_of bucket) (run history_stake initial_state) q = true /\
     dual_grant sample_contract (run history_stake initial_state)
       (read_euint bucket (run history_stake initial_state) q) q).
Proof.
  split; [apply reachable_run|].
  exact (proj1 (proj2
    (dual_grant_bookkeeping sample_verifier sample_contract
       (run history_stake initial_state) (reachable_run _ _ history_stake)))).
Defined.

Lemma hasClaimed_monotone_witness :
  reach (run history_claim initial_state) /\
  Bool.le (hasClaimedInitialGold (run history_claim initial_state) alice)
    (hasClaimedInitialGold
       (run sample_interleaving (run history_claim initial_state)) alice) /\
  granted alice (events (run history_claim initial_state)) =
    (if hasClaimedInitialGold (run history_claim initial_state) alice
     then INITIAL_GRANT else 0) /\
  hasClaimedInitialGold (run history_claim initial_state) bob = false /\
  hasClaimedInitialGold
    (exec bob call_claimInitialGold (run history_claim initial_state)) bob = true /\
  claimInitialGold sample_contract alice
    (run sample_interleaving (run history_claim initial_state)) =
    Revert (ErrorString "Gold already claimed").
Proof.
  split; [apply reachable_run|].
  destruct (hasClaimed_monotone sample_verifier sample_contract
              (run history_claim initial_state) alice bob call_claimInitialGold
              sample_interleaving (reachable_run _ _ history_claim))
    as (_ & _ & Hle & Hgranted & _ & _ & Honce).
  destruct (hasClaimed_monotone sample_verifier sample_contract
              (run history_claim initial_state) bob bob call_claimInitialGold
              sample_interleaving (reachable_run _ _ history_claim))
    as (_ & _ & _ & _ & _ & Hfirst & _).
  exact (conj Hle (conj Hgranted (conj eq_refl
           (conj (proj2 (Hfirst eq_refl)) (proj1 (Honce eq_refl)))))).
Defined.


Lemma frame_other_accounts_witness :
  bob <> alice /\
  getGoldBalance (exec alice (call_stakeGold input_40 sample_proof)
                    (run sample_interleaving (run history_claim initial_state))) bob =
    getGoldBalance (run sample_interleaving (run history_claim initial_state)) bob /\
  getStakedBalance (exec alice (call_stakeGold input_40 sample_proof)
                      (run sample_interleaving (run history_claim initial_state))) bob =
    getStakedBalance (run sample_interleaving (run history_claim initial_state)) bob.
Proof.
  assert (bob <> alice) as Hne by discriminate.
  split; [exact Hne|].
  destruct (frame_other_accounts sample_verifier sample_contract
              (run sample_interleaving (run history_claim initial_state))
              alice (call_stakeGold input_40 sample_proof) bob Hne)
    as (_ & _ & Hgold & Hstake & _).
  exact (conj Hgold Hstake).
Defined.

(** ** The further properties at the sample environment *)

Lemma stake_then_withdraw_restores_witness :
  reach (run history_claim initial_state) /\
  sample_verifier alice sample_contract input_40 sample_proof = true /\
  amountOf input_40 <= balanceOf (run history_claim initial_state) alice /\
  balanceOf (exec alice (call_withdrawStakedGold input_40 sample_proof)
               (exec alice (call_stakeGold input_40 sample_proof)
                  (run history_claim initial_state))) alice =
    balanceOf (run history_claim initial_state) alice /\
  stakeOf (exec alice (call_withdrawStakedGold input_40 sample_proof)
             (exec alice (call_stakeGold input_40 sample_proof)
                (run history_claim initial_state))) alice =
    stakeOf (run history_claim initial_state) alice /\
  statusOf (exec alice (call_withdrawStakedGold input_40 sample_proof)
              (exec alice (call_stakeGold input_40 sample_proof)
                 (run history_claim initial_state))) alice = 0.
Proof.
  assert (amountOf input_40 <= balanceOf (run history_claim initial_state) alice) as Hle
    by (vm_compute; discriminate).
  split; [apply reachable_run|]. split; [reflexivity|]. split; [exact Hle|].
  exact (stake_then_withdraw_restores sample_verifier sample_contract
           (run history_claim initial_state) alice input_40 sample_proof
           input_40 sample_proof (reachable_run _ _ history_claim)
           eq_refl eq_refl eq_refl Hle).
Defined.

Lemma withdraw_then_stake_restores_witness :
  reach (run history_stake initial_state) /\
  sample_verifier alice sample_contract input_20 sample_proof = true /\
  amountOf input_20 <= stakeOf (run history_stake initial_state) alice /\
  balanceOf (exec alice (call_stakeGold input_20 sample_proof)
               (exec alice (call_withdrawStakedGold input_20 sample_proof)
                  (run history_stake initial_state))) alice =
    balanceOf (run history_stake initial_state) alice /\
  stakeOf (exec alice (call_stakeGold input_20 sample_proof)
             (exec alice (call_withdrawStakedGold input_20 sample_proof)
                (run history_stake initial_state))) alice =
    stakeOf (run history_stake initial_state) alice /\
  statusOf (exec alice (call_stakeGold input_20 sample_proof)
              (exec alice (call_withdrawStakedGold input_20 sample_proof)
                 (run history_stake initial_state))) alice = 0.
Proof.
  assert (amountOf input_20 <= stakeOf (run history_stake initial_state) alice) as Hle
    by (vm_compute; discriminate).
  split; [apply reachable_run|]. split; [reflexivity|]. split; [exact Hle|].
  exact (withdraw_then_stake_restores sample_verifier sample_contract
           (run history_stake initial_state) alice input_20 sample_proof
           input_20 sample_proof (reachable_run _ _ history_stake)
           eq_refl eq_refl eq_refl Hle).
Defined.

Lemma unclaimed_moves_rejected_witness :
  reach (run history_claim initial_state) /\
  hasClaimedInitialGold (run history_claim initial_state) bob = false /\
  sample_verifier bob sample_contract input_40 sample_proof = true /\
  0 < amountOf input_40 /\
  statusOf (exec bob (call_stakeGold input_40 sample_proof)
              (run history_claim initial_state)) bob = 1 /\
  statusOf (exec bob (call_withdrawStakedGold input_40 sample_proof)
              (run history_claim initial_state)) bob = 2.
Proof.
  assert (0 < amountOf input_40) as Hpos by reflexivity.
  split; [apply reachable_run|]. split; [reflexivity|]. split; [reflexivity|].
  split; [exact Hpos|].
  destruct (unclaimed_moves_rejected sample_verifier sample_contract
              (run history_claim initial_state) bob input_40 sample_proof
              (reachable_run _ _ history_claim) eq_refl eq_refl Hpos)
    as ((_ & _ & Hstaked) & (_ & _ & Hwithdrawn)).
  exact (conj Hstaked Hwithdrawn).
Defined.

Lemma zero_amount_accepted_witness :
  reach (run history_claim initial_state) /\
  sample_verifier bob sample_contract input_0 sample_proof = true /\
  amountOf input_0 = 0 /\
  statusOf (exec bob (call_stakeGold input_0 sample_proof)
              (run history_claim initial_state)) bob = 0 /\
  statusOf (exec bob (call_withdrawStakedGold input_0 sample_proof)
              (run history_claim initial_state)) bob = 0.
Proof.
  split; [apply reachable_run|]. split; [reflexivity|]. split; [reflexivity|].
  destruct (zero_amount_accepted sample_verifier sample_contract
              (run history_claim initial_state) bob input_0 sample_proof
              (reachable_run _ _ history_claim) eq_refl eq_refl)
    as ((_ & _ & Hstaked) & (_ & _ & Hwithdrawn)).
  exact (conj Hstaked Hwithdrawn).
Defined.

Lemma public_part_independent_of_amounts_witness :
  same_public
    (exec alice (call_stakeGold input_40 sample_proof) (run history_claim initial_state))
    (exec alice (call_stakeGold input_150 sample_proof) (run history_claim initial_state)) /\
  same_entry_point (call_withdrawStakedGold input_20 sample_proof)
    (call_withdrawStakedGold input_40 sample_proof) = true /\
  proof_accepted sample_verifier sample_contract alice
    (call_withdrawStakedGold input_20 sample_proof) =
  proof_accepted sample_verifier sample_contract alice
    (call_withdrawStakedGold input_40 sample_proof) /\
  same_public
    (exec alice (call_withdrawStakedGold input_20 sample_proof)
       (exec alice (call_stakeGold input_40 sample_proof)
          (run history_claim initial_state)))
    (exec alice (call_withdrawStakedGold input_40 sample_proof)
       (exec alice (call_stakeGold input_150 sample_proof)
          (run history_claim initial_state))).
Proof.
  assert (same_public (run history_claim initial_state) (run history_claim initial_state))
    as H0 by (split; reflexivity).
  pose proof (public_part_independent_of_amounts sample_verifier sample_contract
                _ _ alice (call_stakeGold input_40 sample_proof)
                (call_stakeGold input_150 sample_proof) H0 eq_refl eq_refl) as H1.
  split; [exact H1|]. split; [reflexivity|]. split; [reflexivity|].
  exact (public_part_independent_of_amounts sample_verifier sample_contract
           _ _ alice (call_withdrawStakedGold input_20 sample_proof)
           (call_withdrawStakedGold input_40 sample_proof) H1 eq_refl eq_refl).
Defined.

Lemma permissions_reachable_witness :
  reach (run history_claim initial_state) /\
  In (FheAdd (TrivialEncrypt 0) (TrivialEncrypt 100), alice)
    (acl (run history_claim initial_state)) /\
  FheAdd (TrivialEncrypt 0) (TrivialEncrypt 100) <> Uninitialized /\
  In (FheAdd (TrivialEncrypt 0) (TrivialEncrypt 100), sample_contract)
    (acl (run history_claim initial_state)) /\
  (alice = sample_contract \/
   exists e, In e (events (run history_claim initial_state)) /\ event_player e = alice).
Proof.
  assert (In (FheAdd (TrivialEncrypt 0) (TrivialEncrypt 100), alice)
            (acl (run history_claim initial_state))) as Hin
    by (right; right; left; reflexivity).
  split; [apply reachable_run|]. split; [exact Hin|].
  exact (permissions_reachable sample_verifier sample_contract
           (run history_claim initial_state) _ alice
           (reachable_run _ _ history_claim) Hin).
Defined.

Lemma cleartext_ranges_witness :
  reach (run history_stake initial_state) /\
  0 <= balanceOf (run history_stake initial_state) alice <= INITIAL_GRANT /\
  0 <= stakeOf (run history_stake initial_state) alice <= INITIAL_GRANT /\
  (statusOf (run history_stake initial_state) alice = STATUS_OK \/
   statusOf (run history_stake initial_state) alice = STATUS_INSUFFICIENT_BALANCE \/
   statusOf (run history_stake initial_state) alice = STATUS_INSUFFICIENT_STAKE).
Proof.
  split; [apply reachable_run|].
  exact (cleartext_ranges sample_verifier sample_contract
           (run history_stake initial_state) alice (reachable_run _ _ history_stake)).
Defined.

Lemma slots_exist_together_witness :
  reach (run history_claim initial_state) /\
  hasClaimedInitialGold (run history_claim initial_state) alice = true /\
  read_bool ref_hasStatusRecord (run history_claim initial_state) alice =
    read_bool ref_hasGoldBalance (run history_claim initial_state) alice /\
  read_bool ref_hasGoldBalance (run history_claim initial_state) alice = true /\
  getGoldBalance (run history_claim initial_state) alice <> Uninitialized /\
  getLastActionStatus (run history_claim initial_state) alice <> Uninitialized.
Proof.
  split; [apply reachable_run|]. split; [reflexivity|].
  destruct (slots_exist_together sample_verifier sample_contract
              (run history_claim initial_state) alice (reachable_run _ _ history_claim))
    as [Hsame Hboth].
  exact (conj Hsame (Hboth (or_intror eq_refl))).
Defined.

Lemma different_senders_commute_witness :
  alice <> bob /\
  same_storage
    (exec bob call_claimInitialGold
       (exec alice (call_stakeGold input_40 sample_proof)
          (run history_claim initial_state)))
    (exec alice (call_stakeGold input_40 sample_proof)
       (exec bob call_claimInitialGold (run history_claim initial_state))).
Proof.
  assert (alice <> bob) as Hne by discriminate.
  split; [exact Hne|].
  exact (different_senders_commute sample_verifier sample_contract
           (run history_claim initial_state) alice
           (call_stakeGold input_40 sample_proof) bob call_claimInitialGold Hne).
Defined.

Lemma statusDescription_of_contract_status_witness :
  reach (exec alice (call_stakeGold input_150 sample_proof)
           (run history_claim initial_state)) /\
  StakeApp.statusDescription
    (Some (StakeApp.mkDecryptedBalances 100 0
             (statusOf (exec alice (call_stakeGold input_150 sample_proof)
                          (run history_claim initial_state)) alice))) <>
  "Unknown status"%string.
Proof.
  assert (reach (exec alice (call_stakeGold input_150 sample_proof)
                   (run history_claim initial_state))) as R
    by (constructor; apply reachable_run).
  split; [exact R|].
  exact (proj2 (statusDescription_of_contract_status sample_verifier sample_contract
                  _ alice 100 0 R)).
Defined.

Lemma decryptBalances_shows_cleartexts_witness :
  reach (run history_stake initial_state) /\
  StakeApp.signTypedData sample_signer = inr "0xsigned"%string /\
  StakeApp.decrypted
    (StakeApp.decryptBalances (Some sample_instance) (Some alice)
       (Some (getGoldBalance (run history_stake initial_state) alice))
       (Some (getStakedBalance (run history_stake initial_state) alice))
       (Some (getLastActionStatus (run history_stake initial_state) alice))
       (Some sample_signer) (StakeApp.mkDecryptState None false None)) =
  Some (StakeApp.mkDecryptedBalances
          (balanceOf (run history_stake initial_state) alice)
          (stakeOf (run history_stake initial_state) alice)
          (statusOf (run history_stake initial_state) alice)).
Proof.
  split; [apply reachable_run|]. split; [reflexivity|].
  refine (proj1 (decryptBalances_shows_cleartexts sample_verifier sample_contract
                   (run history_stake initial_state) alice sample_instance sample_signer
                   "0xsigned"%string (StakeApp.mkDecryptState None false None)
                   (reachable_run _ _ history_stake) eq_refl _)).
  intros _. exists (fun handle => Some (decrypt handle)). split; [reflexivity | auto].
Defined.

Lemma decryptBalances_without_records_witness :
  reach (run history_claim initial_state) /\
  read_bool ref_hasGoldBalance (run history_claim initial_state) bob = false /\
  StakeApp.decryptBalances (Some sample_instance) (Some bob)
    (Some (getGoldBalance (run history_claim initial_state) bob))
    (Some (getStakedBalance (run history_claim initial_state) bob))
    (Some (getLastActionStatus (run history_claim initial_state) bob))
    None (StakeApp.mkDecryptState None false None) =
  StakeApp.mkDecryptState
    (Some (StakeApp.mkFeedback StakeApp.info "Balances are zero")) false
    (Some (StakeApp.mkDecryptedBalances 0 0 0)).
Proof.
  split; [apply reachable_run|]. split; [reflexivity|].
  exact (decryptBalances_without_records sample_verifier sample_contract
           (run history_claim initial_state) bob sample_instance None
           (StakeApp.mkDecryptState None false None)
           (reachable_run _ _ history_claim) eq_refl).
Defined.

Lemma claim_button_agrees_with_contract_witness :
  reach (run history_claim initial_state) /\
  StakeApp.claimDisabled false false (Some bob) false
    (Some (hasClaimedInitialGold (run history_claim initial_state) bob)) = false /\
  StakeApp.claimLabel (Some bob)
    (Some (hasClaimedInitialGold (run history_claim initial_state) bob)) false =
    "Claim 100 Gold"%string /\
  balanceOf (exec bob call_claimInitialGold (run history_claim initial_state)) bob = 100.
Proof.
  split; [apply reachable_run|]. split; [reflexivity|].
  destruct (proj1 (claim_button_agrees_with_contract sample_verifier sample_contract
                     (run history_claim initial_state) bob false false false
                     (reachable_run _ _ history_claim)) eq_refl)
    as (Hlabel & _ & Hbalance).
  exact (conj Hlabel Hbalance).
Defined.

Lemma task_decrypt_balances_prints_cleartexts_witness :
  reach (run history_stake initial_state) /\
  task_decrypt_balances sample_userDecryptEuint (run history_stake initial_state) alice =
  Some (balanceOf (run history_stake initial_state) alice,
        stakeOf (run history_stake initial_state) alice,
        statusOf (run history_stake initial_state) alice).
Proof.
  split; [apply reachable_run|].
  exact (task_decrypt_balances_prints_cleartexts sample_verifier sample_contract
           (run history_stake initial_state) alice sample_userDecryptEuint
           (reachable_run _ _ history_stake) (fun h _ _ => eq_refl)).
Defined.
